(** * A poll-driven key-value server: wire protocol and connection state machine

    Shallow embedding of [src/multithreading/asyncio.cpp], [src/utils/utils.h]
    and the request builder of [src/client.cpp].

    Conventions of the embedding.
    - A [uint8_t] is a [byte]; a [std::vector<uint8_t>] is a [list byte].
    - A [std::string] is a [string]; the [reinterpret_cast]s between
      [const char*] and [const uint8_t*] are [list_byte_of_string] and
      [string_of_list_byte].
    - A [uint32_t] is a [Z] in [0, 2^32); every place where the source
      narrows to or adds in 32 bits carries an explicit [wrap32].
    - [std::memcpy] of a [uint32_t] from or to four bytes uses the host byte
      order; the embedding fixes little-endian (x86-64, AArch64).
    - The pointer pair [(cur, end)] of the request parser is the list of the
      bytes between the two pointers.
    - The results of the [read] and [write] system calls are inputs of the
      handlers ([read_result], [write_result]); the bytes handed to the
      socket are an output. *)

From Stdlib Require Import ZArith Lia ZifyBool List Bool.
From Stdlib Require Import Strings.String Strings.Ascii Strings.Byte.
From stdpp Require Import base option list gmap strings.
From Equations Require Import Equations.
From Equations.Prop Require Import Logic.

Local Open Scope Z_scope.

(** ** utils.h *)

(** [inline constexpr std::size_t k_max_msg = 4096;] *)
Definition k_max_msg : Z := 4096.

Module ResponseStatus.
(** Success is the literal [0] in the source ([uint32_t status = 0]). *)
Definition RES_NX : Z := 1.
(** [static_cast<std::uint32_t>(-1)] *)
Definition RES_ERR : Z := (-1) mod 2 ^ 32.
End ResponseStatus.

(** ** 32-bit words and their four bytes *)

Definition wrap32 (z : Z) : Z := z mod 2 ^ 32.

Definition byte_of_Z (z : Z) : byte :=
  match Byte.of_N (Z.to_N (z mod 256)) with
  | Some b => b
  | None => x00
  end.

Definition Z_of_byte (b : byte) : Z := Z.of_N (Byte.to_N b).

(** [std::memcpy(raw, &v, 4)] *)
Definition store_u32 (v : Z) : list byte :=
  [byte_of_Z v; byte_of_Z (v / 2 ^ 8); byte_of_Z (v / 2 ^ 16); byte_of_Z (v / 2 ^ 24)].

#[global] Arguments store_u32 : simpl never.

(** [std::memcpy(&out, cur, 4)]; the callers check that four bytes are there. *)
Definition load_u32 (cur : list byte) : Z :=
  match cur with
  | b0 :: b1 :: b2 :: b3 :: _ =>
      Z_of_byte b0 + 2 ^ 8 * Z_of_byte b1 + 2 ^ 16 * Z_of_byte b2 + 2 ^ 24 * Z_of_byte b3
  | _ => 0
  end.

(** [s.size()] and [vector::size()] as integers. *)
Definition size_of {A} (l : list A) : Z := Z.of_nat (length l).
Definition str_size (s : string) : Z := Z.of_nat (String.length s).

(** ** client.cpp: the request builder *)

Module Client.

Definition append_u32 (buf : list byte) (v : Z) : list byte :=
  buf ++ store_u32 v.

(** The first loop of [build_payload]: the size estimate. [None] is the
    early [return false]. *)
Fixpoint estimate (cmd : list string) (estimated : Z) : option Z :=
  match cmd with
  | [] => Some estimated
  | s :: cmd' =>
      if str_size s >? k_max_msg then None
      else
        let estimated := estimated + (4 + str_size s) in
        if estimated >? k_max_msg then None else estimate cmd' estimated
  end.

(** The second loop of [build_payload]. *)
Fixpoint append_strings (cmd : list string) (payload : list byte) : list byte :=
  match cmd with
  | [] => payload
  | s :: cmd' =>
      let payload := append_u32 payload (wrap32 (str_size s)) in
      append_strings cmd' (payload ++ list_byte_of_string s)
  end.

Definition build_payload (cmd : list string) : option (list byte) :=
  match estimate cmd 4 with
  | None => None
  | Some _ =>
      let payload := append_u32 [] (wrap32 (size_of cmd)) in
      Some (append_strings cmd payload)
  end.

(** [send_command], the request frame: [[len][payload]]. *)
Definition request_frame (cmd : list string) : option (list byte) :=
  match build_payload cmd with
  | None => None
  | Some payload =>
      let len := wrap32 (size_of payload) in
      if len >? k_max_msg then None
      else Some (append_u32 [] len ++ payload)
  end.

(** [send_command], the check of the response length:
    [if (rlen > k_max_msg || rlen < 4) return false]. *)
Definition response_length_ok (rlen : Z) : bool :=
  negb ((rlen >? k_max_msg) || (rlen <? 4)).

(** [send_command], reading one response off the stream: the header, the
    length check, then [rlen] bytes split into status and data. The
    result carries the bytes that follow the response. [None] is
    [return false], and also stands for a stream that ends early, where
    [read_full] does not return. *)
Definition read_response (stream : list byte) : option (Z * string * list byte) :=
  if size_of stream <? 4 then None
  else
    let rlen := load_u32 stream in
    if negb (response_length_ok rlen) then None
    else
      let rbuf := take (Z.to_nat rlen) (drop 4 stream) in
      if size_of rbuf <? rlen then None
      else
        Some (load_u32 rbuf,
              string_of_list_byte (drop 4 rbuf),
              drop (Z.to_nat rlen) (drop 4 stream)).

End Client.

(** ** asyncio.cpp: KVStore *)

(** [impl_] is a pointer that stays null until the first call. *)
Record KVStore := mkKVStore { impl_ : option (gmap string string) }.

Definition KVStore_new : KVStore := mkKVStore None.

(** The map behind the store; a null [impl_] holds nothing. *)
Definition contents (st : KVStore) : gmap string string :=
  match impl_ st with
  | Some data => data
  | None => ∅
  end.

(** [Some v] is [return true] with [out = v]. *)
Definition KVStore_get (st : KVStore) (key : string) : KVStore * option string :=
  let data := match impl_ st with Some data => data | None => ∅ end in
  (mkKVStore (Some data), data !! key).

Definition KVStore_set (st : KVStore) (key value : string) : KVStore :=
  let data := match impl_ st with Some data => data | None => ∅ end in
  mkKVStore (Some (<[key := value]> data)).

(** [erase(key) > 0] *)
Definition KVStore_del (st : KVStore) (key : string) : KVStore * bool :=
  let data := match impl_ st with Some data => data | None => ∅ end in
  (mkKVStore (Some (delete key data)), bool_decide (is_Some (data !! key))).

(** ** asyncio.cpp: buffer and cursor helpers *)

Definition bufConsume (buf : list byte) (n : Z) : list byte :=
  if n =? 0 then buf
  else if n >=? size_of buf then []
  else drop (Z.to_nat n) buf.

Definition bufAppend (buf data : list byte) : list byte :=
  if size_of data =? 0 then buf else buf ++ data.

(** [cur] holds the bytes from the cursor to [end]. *)
Definition readU32 (cur : list byte) : option (Z * list byte) :=
  if 4 >? size_of cur then None
  else Some (load_u32 cur, drop 4 cur).

Definition readStr (cur : list byte) (n : Z) : option (string * list byte) :=
  if n >? size_of cur then None
  else Some (string_of_list_byte (take (Z.to_nat n) cur), drop (Z.to_nat n) cur).

(** ** asyncio.cpp: Connection *)

Record Connection := mkConnection {
  fd_ : Z;
  want_read_ : bool;
  want_write_ : bool;
  want_close_ : bool;
  incoming_ : list byte;
  outgoing_ : list byte
}.

Definition Connection_new (fd : Z) : Connection :=
  mkConnection fd true false false [] [].

Definition set_want_close (c : Connection) (b : bool) : Connection :=
  mkConnection (fd_ c) (want_read_ c) (want_write_ c) b (incoming_ c) (outgoing_ c).

Definition set_wants (c : Connection) (r w : bool) : Connection :=
  mkConnection (fd_ c) r w (want_close_ c) (incoming_ c) (outgoing_ c).

Definition set_incoming (c : Connection) (buf : list byte) : Connection :=
  mkConnection (fd_ c) (want_read_ c) (want_write_ c) (want_close_ c) buf (outgoing_ c).

Definition set_outgoing (c : Connection) (buf : list byte) : Connection :=
  mkConnection (fd_ c) (want_read_ c) (want_write_ c) (want_close_ c) (incoming_ c) buf.

Definition consumeIncoming (c : Connection) (n : Z) : Connection :=
  set_incoming c (bufConsume (incoming_ c) n).

Definition appendOutgoing (c : Connection) (data : list byte) : Connection :=
  set_outgoing c (bufAppend (outgoing_ c) data).

(** The loop of [parseRequest]: [n] strings still to read. *)
Fixpoint parseStrings (n : nat) (cur : list byte) (out : list string)
  : option (list string * list byte) :=
  match n with
  | O => Some (out, cur)
  | S n' =>
      match readU32 cur with
      | None => None
      | Some (slen, cur) =>
          match readStr cur slen with
          | None => None
          | Some (s, cur) => parseStrings n' cur (out ++ [s])
          end
      end
  end.

(** [data] starts at the pointer [data]; the parser looks at its first
    [size] bytes. *)
Definition parseRequest (data : list byte) (size : Z) : option (list string) :=
  let cur := take (Z.to_nat size) data in
  match readU32 cur with
  | None => None
  | Some (nstr, cur) =>
      if nstr >? k_max_msg then None
      else
        match parseStrings (Z.to_nat nstr) cur [] with
        | None => None
        | Some (out, cur) =>
            if negb (size_of cur =? 0) then None else Some out
        end
  end.

Definition appendResponse (c : Connection) (status : Z) (data : string) : Connection :=
  let resp_len := wrap32 (4 + wrap32 (str_size data)) in
  let c := appendOutgoing c (store_u32 resp_len) in
  let c := appendOutgoing c (store_u32 status) in
  if negb (str_size data =? 0) then appendOutgoing c (list_byte_of_string data)
  else c.

(** The command block of [tryOneRequest] (the chain of [if]s on [cmd]):
    status, data and the store afterwards. *)
Definition execute (cmd : list string) (store : KVStore) : Z * string * KVStore :=
  if (size_of cmd =? 2) && (nth 0 cmd "" =? "get")%string then
    match KVStore_get store (nth 1 cmd "") with
    | (store, Some value) => (0, value, store)
    | (store, None) => (ResponseStatus.RES_NX, "", store)
    end
  else if (size_of cmd =? 3) && (nth 0 cmd "" =? "set")%string then
    (0, "", KVStore_set store (nth 1 cmd "") (nth 2 cmd ""))
  else if (size_of cmd =? 2) && (nth 0 cmd "" =? "del")%string then
    let '(store, existed) := KVStore_del store (nth 1 cmd "") in
    (0, "", store)
  else
    (ResponseStatus.RES_ERR, "", store).

Definition tryOneRequest (c : Connection) (store : KVStore)
  : bool * Connection * KVStore :=
  if size_of (incoming_ c) <? 4 then (false, c, store)
  else
    let len := load_u32 (incoming_ c) in
    if len >? k_max_msg then (false, set_want_close c true, store)
    else if size_of (incoming_ c) <? wrap32 (4 + len) then (false, c, store)
    else
      let req := drop 4 (incoming_ c) in
      match parseRequest req len with
      | None =>
          let c := set_want_close c true in
          (false, consumeIncoming c (wrap32 (4 + len)), store)
      | Some cmd =>
          let '(status, data, store) := execute cmd store in
          let c := appendResponse c status data in
          (true, consumeIncoming c (wrap32 (4 + len)), store)
      end.

(** [while (tryOneRequest(store)) {}] *)
Equations? processRequests (c : Connection) (store : KVStore)
  : Connection * KVStore by wf (length (incoming_ c)) lt :=
  processRequests c store with inspect (tryOneRequest c store) => {
    | exist _ (pair (pair true c') store') Heq => processRequests c' store';
    | exist _ (pair (pair false c') store') Heq => (c', store') }.
Proof.
  unfold tryOneRequest in Heq.
  destruct (size_of (incoming_ c) <? 4) eqn:H4; [discriminate |].
  destruct (load_u32 (incoming_ c) >? k_max_msg) eqn:Hmax; [discriminate |].
  destruct (size_of (incoming_ c) <? wrap32 (4 + load_u32 (incoming_ c))) eqn:Hsz;
    [discriminate |].
  destruct (parseRequest _ _); [| discriminate].
  destruct (execute _ _) as [[status data] st].
  injection Heq as <- <-.
  assert (Hlo : 0 <= load_u32 (incoming_ c)).
  { unfold load_u32, Z_of_byte.
    destruct (incoming_ c) as [| ? [| ? [| ? [| ? ?]]]]; lia. }
  rewrite Z.gtb_ltb in Hmax.
  unfold wrap32, k_max_msg in *. change (2 ^ 32) with 4294967296 in *.
  rewrite Z.mod_small in * by lia.
  unfold consumeIncoming, appendResponse, appendOutgoing, set_outgoing,
    set_incoming, bufConsume, size_of in *.
  destruct (negb _); cbn [incoming_];
    (destruct (_ =? 0) eqn:E0; [lia |]);
    (destruct (_ >=? _) eqn:E1; [simpl; lia | rewrite length_drop; lia]).
Qed.

(** The outcome of [::read(fd_, buf, sizeof(buf))]. *)
Inductive read_result :=
| ReadWouldBlock                (* rv < 0 && errno == EAGAIN *)
| ReadError                     (* rv < 0, any other errno *)
| ReadEOF                       (* rv == 0 *)
| ReadBytes (buf : list byte).  (* rv > 0: the rv bytes placed in buf *)

(** The outcome of [::write(fd_, outgoing_.data(), outgoing_.size())]. *)
Inductive write_result :=
| WriteWouldBlock               (* rv < 0 && errno == EAGAIN *)
| WriteError                    (* rv < 0, any other errno *)
| Wrote (rv : Z).               (* rv >= 0 bytes taken by the socket *)

(** The second component is what the socket received. *)
Definition handleWritable (w : write_result) (c : Connection)
  : Connection * list byte :=
  if size_of (outgoing_ c) =? 0 then (set_wants c true false, [])
  else
    match w with
    | WriteWouldBlock => (c, [])
    | WriteError => (set_want_close c true, [])
    | Wrote rv =>
        let sent := take (Z.to_nat rv) (outgoing_ c) in
        let c := set_outgoing c (bufConsume (outgoing_ c) rv) in
        if size_of (outgoing_ c) =? 0 then (set_wants c true false, sent)
        else (c, sent)
    end.

Definition handleReadable (r : read_result) (w : write_result)
  (c : Connection) (store : KVStore) : Connection * KVStore * list byte :=
  match r with
  | ReadWouldBlock => (c, store, [])
  | ReadError => (set_want_close c true, store, [])
  | ReadEOF =>
      if negb (size_of (incoming_ c) =? 0) then (set_want_close c true, store, [])
      else (set_want_close c true, store, [])
  | ReadBytes buf =>
      let c := set_incoming c (bufAppend (incoming_ c) buf) in
      let '(c, store) := processRequests c store in
      if negb (size_of (outgoing_ c) =? 0) then
        let c := set_wants c false true in
        let '(c, sent) := handleWritable w c in
        (c, store, sent)
      else (c, store, [])
  end.

(** ** The wire format in the words of the protocol description *)

(** A string on the wire: its length as a 32-bit word, then its bytes. *)
Definition wire_string (s : string) : list byte :=
  store_u32 (str_size s) ++ list_byte_of_string s.

Definition wire_strings (cmd : list string) : list byte :=
  concat (map wire_string cmd).

(** A request body: the string count, then the strings. *)
Definition wire_body (cmd : list string) : list byte :=
  store_u32 (size_of cmd) ++ wire_strings cmd.

(** A response frame: [4 + payload length], the status, the payload. *)
Definition response_frame (status : Z) (data : string) : list byte :=
  store_u32 (4 + str_size data) ++ store_u32 status ++ list_byte_of_string data.

(** A complete request frame carrying [cmd]: a length prefix within the
    bound, then a body of that length which the server parses to [cmd]. *)
Definition request_frame_for (cmd : list string) (frame : list byte) : Prop :=
  ∃ body, frame = store_u32 (size_of body) ++ body
          ∧ size_of body <= k_max_msg
          ∧ parseRequest body (size_of body) = Some cmd.

(** Commands run one after the other against the store: the responses in
    order, and the store at the end. *)
Fixpoint run_commands (cmds : list (list string)) (store : KVStore)
  : list (Z * string) * KVStore :=
  match cmds with
  | [] => ([], store)
  | cmd :: cmds' =>
      let '(status, data, store) := execute cmd store in
      let '(rs, store) := run_commands cmds' store in
      ((status, data) :: rs, store)
  end.

Definition response_frames (rs : list (Z * string)) : list byte :=
  concat (map (λ r, response_frame (fst r) (snd r)) rs).

(** The interest flags exclude each other. *)
Definition flags_exclusive (c : Connection) : Prop :=
  ¬ (want_read_ c = true ∧ want_write_ c = true).

(** The three commands the server knows. *)
Definition recognized (cmd : list string) : Prop :=
  (∃ k, cmd = ["get"; k]%string)
  ∨ (∃ k v, cmd = ["set"; k; v]%string)
  ∨ (∃ k, cmd = ["del"; k]%string).

(** The handling of an oversized frame as the protocol description words
    it: the connection closes, nothing is appended, the loop stops, and the
    declared length worth of bytes leaves the incoming buffer (counted with
    or without the four bytes of the prefix). *)
Definition oversized_dropped (c : Connection) (store : KVStore) : Prop :=
  let '(again, c', _) := tryOneRequest c store in
  again = false
  ∧ want_close_ c' = true
  ∧ outgoing_ c' = outgoing_ c
  ∧ (incoming_ c' = drop (Z.to_nat (load_u32 (incoming_ c))) (incoming_ c)
     ∨ incoming_ c' = drop (Z.to_nat (4 + load_u32 (incoming_ c))) (incoming_ c)).

(** A fresh connection that has received a prefix declaring 4097 bytes and
    one byte of body. *)
Definition conn_oversized : Connection :=
  mkConnection 5 true false false (store_u32 4097 ++ [x00]) [].

(** Every value fits in a response frame of at most [k_max_msg] bytes. *)
Definition values_bounded (store : KVStore) : Prop :=
  ∀ k v, contents store !! k = Some v → str_size v + 4 <= k_max_msg.

(** The stores reached from the empty one by serving requests, on any
    connection and with any buffer content. *)
Inductive served : KVStore → Prop :=
| served_new : served KVStore_new
| served_request c store again c' store' :
    served store →
    tryOneRequest c store = (again, c', store') →
    served store'.

(** The connections the event loop can hold: built by the constructor and
    driven by the two handlers, with any outcome of the system calls. *)
Inductive conn_reachable : Connection → Prop :=
| reach_new fd : conn_reachable (Connection_new fd)
| reach_readable r w c store :
    conn_reachable c → conn_reachable (handleReadable r w c store).1.1
| reach_writable w c :
    conn_reachable c → conn_reachable (handleWritable w c).1.

(** ** Concrete buffers, stores and connections *)

Definition cmd_set_foo_bar : list string := ["set"; "foo"; "bar"]%string.

Definition body_set_foo_bar : list byte :=
  store_u32 3 ++ store_u32 3 ++ list_byte_of_string "set"
    ++ store_u32 3 ++ list_byte_of_string "foo"
    ++ store_u32 3 ++ list_byte_of_string "bar".

Definition cmd_get_foo : list string := ["get"; "foo"]%string.

Definition frame_set_foo_bar : list byte :=
  store_u32 (size_of body_set_foo_bar) ++ body_set_foo_bar.

Definition frame_get_foo : list byte :=
  store_u32 (size_of (wire_body cmd_get_foo)) ++ wire_body cmd_get_foo.

(** A connection that has received the frame of [set foo bar]. *)
Definition conn_set_foo_bar : Connection :=
  mkConnection 8 true false false (frame_set_foo_bar ++ []) [].

(** The body of [get k] with one byte after its last string. *)
Definition body_trailing : list byte :=
  wire_body ["get"; "k"]%string ++ [x00].

Definition conn_trailing : Connection :=
  mkConnection 6 true false false
    (store_u32 (size_of body_trailing) ++ body_trailing ++ []) [].

(** One string announced, its length word cut after two bytes. *)
Definition body_truncated_prefix : list byte := store_u32 1 ++ [x03; x00].

(** One string announced as nine bytes long, three bytes present. *)
Definition body_overrun : list byte :=
  store_u32 1 ++ store_u32 9 ++ list_byte_of_string "abc".

(** The malformed command of the protocol description. *)
Definition cmd_set_one_arg : list string := ["set"; "onlyonearg"]%string.

Definition conn_set_one_arg : Connection :=
  mkConnection 7 true false false
    (store_u32 (size_of (wire_body cmd_set_one_arg))
       ++ wire_body cmd_set_one_arg ++ []) [].

(** A body that declares 5000 strings. *)
Definition body_big_count : list byte := store_u32 5000.

(** ** Further properties of the connection *)

(** The interest flags follow the outgoing queue: a connection wants to
    write exactly when bytes are queued, and to read otherwise. *)
Definition queue_matches_interest (c : Connection) : Prop :=
  want_write_ c = negb (want_read_ c)
  ∧ (want_read_ c = true ↔ outgoing_ c = []).

(** ** <poll.h> *)

(** The event bits, with the values Linux gives them. *)
Definition POLLIN : Z := 1.
Definition POLLOUT : Z := 4.
Definition POLLERR : Z := 8.
Definition POLLHUP : Z := 16.
Definition POLLNVAL : Z := 32.

(** [struct pollfd]: [fd] is an [int], [events] and [revents] are [short]s. *)
Record pollfd := mkPollfd {
  pfd_fd : Z;
  pfd_events : Z;
  pfd_revents : Z
}.

(** ** asyncio.cpp: EventLoop *)

(** [fd2conn_] is the vector of owning pointers, [None] for [nullptr];
    [store_] is the store the loop holds by reference. *)
Record EventLoop := mkEventLoop {
  listen_fd_ : Z;
  store_ : KVStore;
  fd2conn_ : list (option Connection);
  poll_args_ : list pollfd
}.

Definition EventLoop_new (listen_fd : Z) (store : KVStore) : EventLoop :=
  mkEventLoop listen_fd store [] [].

(** A call either returns or throws [std::runtime_error]. *)
Inductive outcome (A : Type) :=
| Returned (a : A)
| Thrown (what : string).
Arguments Returned {A} a.
Arguments Thrown {A} what.

(** What the loop does to the sockets besides polling them. *)
Inductive sys_event :=
| SysSent (fd : Z) (bytes : list byte)   (* bytes taken by ::write *)
| SysClosed (fd : Z).                    (* ::close(fd) *)

(** The body of the loop of [preparePollArgs] for one slot of [fd2conn_]. *)
Definition conn_pollfd (conn : Connection) : pollfd :=
  let events := POLLERR in
  let events := if want_read_ conn then Z.lor events POLLIN else events in
  let events := if want_write_ conn then Z.lor events POLLOUT else events in
  mkPollfd (fd_ conn) events 0.

Fixpoint conn_pollfds (conns : list (option Connection)) : list pollfd :=
  match conns with
  | [] => []
  | None :: conns' => conn_pollfds conns'
  | Some conn :: conns' => conn_pollfd conn :: conn_pollfds conns'
  end.

Definition preparePollArgs (l : EventLoop) : EventLoop :=
  mkEventLoop (listen_fd_ l) (store_ l) (fd2conn_ l)
    (mkPollfd (listen_fd_ l) POLLIN 0 :: conn_pollfds (fd2conn_ l)).

(** The outcome of [::poll]: on success the kernel has written the
    [revents] of every entry, given here by position. *)
Inductive poll_result :=
| PollInterrupted                    (* rv < 0 && errno == EINTR *)
| PollFailed                         (* rv < 0, any other errno *)
| PollReady (revents : nat → Z).     (* rv >= 0 *)

Definition waitForEvents (p : poll_result) (l : EventLoop) : outcome EventLoop :=
  match p with
  | PollInterrupted => Returned l
  | PollFailed => Thrown "poll() failed"
  | PollReady revents =>
      Returned
        (mkEventLoop (listen_fd_ l) (store_ l) (fd2conn_ l)
           (imap (λ i pfd, mkPollfd (pfd_fd pfd) (pfd_events pfd) (revents i))
              (poll_args_ l)))
  end.

(** The outcome of [::accept] and of the two [::fcntl] calls that follow a
    successful one. *)
Record accept_result := mkAccept {
  acc_cfd : Z;                (* the value ::accept returned *)
  acc_would_block : bool;     (* errno == EAGAIN || errno == EWOULDBLOCK *)
  acc_getfl_failed : bool;    (* ::fcntl(fd, F_GETFL, 0) < 0 *)
  acc_setfl_failed : bool     (* ::fcntl(fd, F_SETFL, ...) < 0 *)
}.

Definition setNonBlocking (a : accept_result) : outcome unit :=
  if acc_getfl_failed a then Thrown "fcntl(F_GETFL) failed"
  else if acc_setfl_failed a then Thrown "fcntl(F_SETFL, O_NONBLOCK) failed"
  else Returned tt.

(** [None] is [nullptr]. *)
Definition acceptOne (a : accept_result) : outcome (option Connection) :=
  let cfd := acc_cfd a in
  if cfd <? 0 then
    if acc_would_block a then Returned None
    else Thrown "accept() failed"
  else
    match setNonBlocking a with
    | Thrown what => Thrown what
    | Returned _ => Returned (Some (Connection_new cfd))
    end.

Definition handleListeningSocket (a : accept_result) (l : EventLoop)
  : outcome EventLoop :=
  match poll_args_ l with
  | [] => Returned l
  | pfd :: _ =>
      if Z.land (pfd_revents pfd) POLLIN =? 0 then Returned l
      else
        match acceptOne a with
        | Thrown what => Thrown what
        | Returned None => Returned l
        | Returned (Some conn) =>
            let cfd := fd_ conn in
            let fd2conn :=
              if cfd >=? size_of (fd2conn_ l) then
                fd2conn_ l
                  ++ replicate (Z.to_nat (cfd + 1) - length (fd2conn_ l)) None
              else fd2conn_ l in
            Returned
              (mkEventLoop (listen_fd_ l) (store_ l)
                 (<[Z.to_nat cfd := Some conn]> fd2conn) (poll_args_ l))
        end
  end.

(** The outcomes of the system calls of the handlers, by descriptor: the
    read and the write of [handleReadable], and the write of
    [handleWritable]. *)
Record io_results := mkIo {
  io_read : Z → read_result;
  io_read_write : Z → write_result;
  io_write : Z → write_result
}.

(** The body of the loop of [handleConnectionSockets] for one entry of
    [poll_args_]. *)
Definition serveConnection (io : io_results) (st : EventLoop * list sys_event)
  (pfd : pollfd) : EventLoop * list sys_event :=
  let '(l, log) := st in
  let ready := wrap32 (pfd_revents pfd) in
  let fd := pfd_fd pfd in
  if (fd <? 0) || (fd >=? size_of (fd2conn_ l)) then st
  else
    match fd2conn_ l !! Z.to_nat fd with
    | Some (Some conn) =>
        let '(conn, store, log) :=
          if negb (Z.land ready POLLIN =? 0) then
            let '(conn', store', sent) :=
              handleReadable (io_read io (fd_ conn)) (io_read_write io (fd_ conn))
                conn (store_ l) in
            (conn', store', log ++ [SysSent (fd_ conn) sent])
          else (conn, store_ l, log) in
        let '(conn, log) :=
          if negb (Z.land ready POLLOUT =? 0) then
            let '(conn', sent) := handleWritable (io_write io (fd_ conn)) conn in
            (conn', log ++ [SysSent (fd_ conn) sent])
          else (conn, log) in
        if negb (Z.land ready (Z.lor (Z.lor POLLERR POLLHUP) POLLNVAL) =? 0)
           || want_close_ conn then
          (mkEventLoop (listen_fd_ l) store
             (<[Z.to_nat fd := None]> (fd2conn_ l)) (poll_args_ l),
           log ++ [SysClosed (fd_ conn)])
        else
          (mkEventLoop (listen_fd_ l) store
             (<[Z.to_nat fd := Some conn]> (fd2conn_ l)) (poll_args_ l),
           log)
    | _ => st
    end.

(** The loop starts at index 1: entry 0 is the listening socket. *)
Definition handleConnectionSockets (io : io_results) (l : EventLoop)
  : EventLoop * list sys_event :=
  foldl (serveConnection io) (l, []) (drop 1 (poll_args_ l)).

Definition runOnce (p : poll_result) (a : accept_result) (io : io_results)
  (l : EventLoop) : outcome (EventLoop * list sys_event) :=
  let l := preparePollArgs l in
  match waitForEvents p l with
  | Thrown what => Thrown what
  | Returned l =>
      match handleListeningSocket a l with
      | Thrown what => Thrown what
      | Returned l => Returned (handleConnectionSockets io l)
      end
  end.

(** ** Properties of the registry *)

(** Every connection sits in the slot of its own descriptor. *)
Definition registry_indexed (fd2conn : list (option Connection)) : Prop :=
  ∀ i conn, fd2conn !! i = Some (Some conn) → fd_ conn = Z.of_nat i.

(** The number of live connections. *)
Definition live_connections (fd2conn : list (option Connection)) : nat :=
  length (conn_pollfds fd2conn).

(** ** A concrete cycle of the event loop *)

(** Listening on descriptor 3, with one fresh connection on descriptor 4
    and one on descriptor 5 that wants to close. *)
Definition demo_loop : EventLoop :=
  mkEventLoop 3 KVStore_new
    [None; None; None; None;
     Some (Connection_new 4); Some (set_want_close (Connection_new 5) true)]
    [].

(** [poll] reports the listening socket and descriptor 4 readable. *)
Definition demo_poll : poll_result :=
  PollReady (λ i, match i with 0%nat | 1%nat => POLLIN | _ => 0 end).

(** [accept] returns descriptor 6. *)
Definition demo_accept : accept_result := mkAccept 6 false false false.

(** Every read delivers the frame of [set foo bar]; every write takes up to
    100 bytes. *)
Definition demo_io : io_results :=
  mkIo (λ _, ReadBytes frame_set_foo_bar) (λ _, Wrote 100) (λ _, Wrote 100).

(** The entry of descriptor 4 with a hang-up reported. *)
Definition demo_hup : pollfd := mkPollfd 4 (Z.lor POLLERR POLLIN) POLLHUP.

(** ** utils.cpp: blocking transfers *)

(** How a transfer loop stands after the system calls it was given: it
    returned 0, threw [std::runtime_error], failed its [assert], or is
    inside a system call that has not returned. *)
Inductive transfer :=
| Finished
| Threw (what : string)
| Aborted
| Blocked.

(** [write_all(fd, buf, n)] with [buf] the [n] bytes to write; [ws] are the
    outcomes of the successive [::write] calls, any negative return being a
    failure; [sent] collects what the socket took. *)
Fixpoint write_all (ws : list write_result) (buf sent : list byte)
  : transfer * list byte :=
  if negb (size_of buf >? 0) then (Finished, sent)
  else
    match ws with
    | [] => (Blocked, sent)
    | Wrote rv :: ws' =>
        if rv <? 0 then (Threw "Cannot write server input", sent)
        else if negb (rv <=? size_of buf) then (Aborted, sent)
        else write_all ws' (drop (Z.to_nat rv) buf) (sent ++ take (Z.to_nat rv) buf)
    | _ :: _ => (Threw "Cannot write server input", sent)
    end.

(** [read_full(fd, buf, n)]; each step is the value of [signal_recevied]
    at the top of the loop and the outcome of the [::read] that follows,
    any negative return being a failure; [got] collects what was placed in
    [buf]. *)
Fixpoint read_full (steps : list (bool * read_result)) (n : Z) (got : list byte)
  : transfer * list byte :=
  if negb (n >? 0) then (Finished, got)
  else
    match steps with
    | [] => (Blocked, got)
    | (true, _) :: _ => (Threw "Stopping during 15 signal...", got)
    | (false, ReadBytes data) :: steps' =>
        if negb (size_of data <=? n) then (Aborted, got)
        else read_full steps' (n - size_of data) (got ++ data)
    | (false, ReadEOF) :: steps' => read_full steps' (n - 0) got
    | (false, _) :: _ => (Threw "Cannot read client input", got)
    end.

(** * Proof automation *)

(** [lia] reads [<?], [<=?] and [=?]; the other two comparisons are turned
    into these, and the powers of two into numerals. *)
Ltac norm_cmp :=
  repeat match goal with
    | H : context [Z.gtb _ _] |- _ => rewrite Z.gtb_ltb in H
    | H : context [Z.geb _ _] |- _ => rewrite Z.geb_leb in H
    | |- context [Z.gtb _ _] => rewrite Z.gtb_ltb
    | |- context [Z.geb _ _] => rewrite Z.geb_leb
    end.

Ltac zlia :=
  norm_cmp;
  unfold k_max_msg in *;
  change (2 ^ 8) with 256 in *; change (2 ^ 16) with 65536 in *;
  change (2 ^ 24) with 16777216 in *; change (2 ^ 32) with 4294967296 in *;
  lia.

(** * Words, buffers and the progress of the request loop *)

(** A byte is below 256, a loaded word is a 32-bit value, and a [true] from
    [tryOneRequest] shortens the incoming buffer. *)
Lemma Z_of_byte_range b : 0 <= Z_of_byte b < 256.
Proof. destruct b; vm_compute; split; congruence. Qed.

Lemma load_u32_range cur : 0 <= load_u32 cur < 2 ^ 32.
Proof.
  unfold load_u32.
  destruct cur as [| b0 [| b1 [| b2 [| b3 ?]]]]; try (split; [lia | reflexivity]).
  pose proof (Z_of_byte_range b0). pose proof (Z_of_byte_range b1).
  pose proof (Z_of_byte_range b2). pose proof (Z_of_byte_range b3).
  change (2 ^ 8) with 256. change (2 ^ 16) with 65536.
  change (2 ^ 24) with 16777216. change (2 ^ 32) with 4294967296. lia.
Qed.

Lemma bufConsume_drop buf n : 0 <= n → bufConsume buf n = drop (Z.to_nat n) buf.
Proof.
  intros Hn. unfold bufConsume, size_of.
  destruct (n =? 0) eqn:E0.
  - apply Z.eqb_eq in E0. subst n. reflexivity.
  - destruct (n >=? Z.of_nat (length buf)) eqn:E1; [| reflexivity].
    symmetry. apply drop_ge. lia.
Qed.

Lemma appendResponse_incoming c status data :
  incoming_ (appendResponse c status data) = incoming_ c.
Proof. unfold appendResponse. destruct (negb _); reflexivity. Qed.

Lemma tryOneRequest_consumes c store c' store' :
  tryOneRequest c store = (true, c', store') →
  (length (incoming_ c') < length (incoming_ c))%nat.
Proof.
  unfold tryOneRequest.
  destruct (size_of (incoming_ c) <? 4) eqn:H4; [discriminate |].
  destruct (load_u32 (incoming_ c) >? k_max_msg) eqn:Hmax; [discriminate |].
  destruct (size_of (incoming_ c) <? wrap32 (4 + load_u32 (incoming_ c))) eqn:Hsz;
    [discriminate |].
  destruct (parseRequest _ _); [| discriminate].
  destruct (execute _ _) as [[status data] st].
  intros [= <- <-].
  pose proof (load_u32_range (incoming_ c)) as Hr.
  unfold consumeIncoming. simpl. rewrite appendResponse_incoming.
  unfold wrap32, k_max_msg, size_of in *.
  change (2 ^ 32) with 4294967296 in *.
  rewrite Z.mod_small in * by lia.
  rewrite bufConsume_drop by lia. rewrite length_drop. lia.
Qed.

(** * Bytes and words *)

Section Words.

Lemma byte_of_Z_of_byte b : byte_of_Z (Z_of_byte b) = b.
Proof. destruct b; reflexivity. Qed.

Lemma Z_of_byte_of_Z z : Z_of_byte (byte_of_Z z) = z mod 256.
Proof.
  unfold byte_of_Z, Z_of_byte.
  assert (Hr : 0 <= z mod 256 < 256) by (apply Z.mod_pos_bound; lia).
  destruct (Byte.of_N (Z.to_N (z mod 256))) as [b |] eqn:E.
  - apply Byte.to_of_N in E. rewrite E. lia.
  - apply Byte.of_N_None_iff in E. lia.
Qed.

Lemma byte_of_Z_mod z : byte_of_Z (z mod 256) = byte_of_Z z.
Proof. unfold byte_of_Z. rewrite Z.mod_mod by lia. reflexivity. Qed.

Lemma byte_of_Z_eq z b : z mod 256 = Z_of_byte b → byte_of_Z z = b.
Proof.
  intros H. rewrite <- byte_of_Z_mod, H. apply byte_of_Z_of_byte.
Qed.

Lemma store_u32_length v : length (store_u32 v) = 4%nat.
Proof. reflexivity. Qed.

Lemma load_store_u32 v rest :
  0 <= v < 2 ^ 32 → load_u32 (store_u32 v ++ rest) = v.
Proof.
  intros Hv. unfold store_u32, load_u32. cbn [app].
  rewrite !Z_of_byte_of_Z.
  change (2 ^ 8) with 256. change (2 ^ 16) with 65536.
  change (2 ^ 24) with 16777216. change (2 ^ 32) with 4294967296 in Hv.
  Z.div_mod_to_equations. lia.
Qed.

Lemma store_load_u32 b0 b1 b2 b3 rest :
  store_u32 (load_u32 (b0 :: b1 :: b2 :: b3 :: rest)) = [b0; b1; b2; b3].
Proof.
  unfold store_u32, load_u32.
  pose proof (Z_of_byte_range b0). pose proof (Z_of_byte_range b1).
  pose proof (Z_of_byte_range b2). pose proof (Z_of_byte_range b3).
  change (2 ^ 8) with 256. change (2 ^ 16) with 65536.
  change (2 ^ 24) with 16777216.
  repeat f_equal; apply byte_of_Z_eq; Z.div_mod_to_equations; lia.
Qed.

Lemma store_load_u32_take cur :
  4 <= size_of cur → store_u32 (load_u32 cur) ++ drop 4 cur = cur.
Proof.
  unfold size_of.
  destruct cur as [| b0 [| b1 [| b2 [| b3 rest]]]]; simpl length; try lia.
  intros _. rewrite store_load_u32. reflexivity.
Qed.

Lemma wrap32_small z : 0 <= z < 2 ^ 32 → wrap32 z = z.
Proof. intros H. unfold wrap32. apply Z.mod_small. exact H. Qed.

Lemma length_list_byte_of_string s :
  length (list_byte_of_string s) = String.length s.
Proof.
  induction s as [| a s IH]; [reflexivity |].
  cbn [list_byte_of_string String.length length]. rewrite <- IH. reflexivity.
Qed.

Lemma length_string_of_list_byte l :
  String.length (string_of_list_byte l) = length l.
Proof.
  rewrite <- (list_byte_of_string_of_list_byte l) at 2.
  symmetry. apply length_list_byte_of_string.
Qed.

Lemma size_of_bytes_of_string s : size_of (list_byte_of_string s) = str_size s.
Proof. unfold size_of, str_size. rewrite length_list_byte_of_string. reflexivity. Qed.

End Words.

(** * The request parser against the wire format *)

Section Parser.

Lemma store_u32_wrap32 v : store_u32 (wrap32 v) = store_u32 v.
Proof.
  unfold store_u32, wrap32.
  change (2 ^ 8) with 256. change (2 ^ 16) with 65536.
  change (2 ^ 24) with 16777216. change (2 ^ 32) with 4294967296.
  assert (Hc : ∀ a b, a mod 256 = b mod 256 → byte_of_Z a = byte_of_Z b).
  { intros a b H. unfold byte_of_Z. rewrite H. reflexivity. }
  rewrite (Hc (v mod 4294967296) v) by (Z.div_mod_to_equations; lia).
  rewrite (Hc (v mod 4294967296 / 256) (v / 256)) by (Z.div_mod_to_equations; lia).
  rewrite (Hc (v mod 4294967296 / 65536) (v / 65536)) by (Z.div_mod_to_equations; lia).
  rewrite (Hc (v mod 4294967296 / 16777216) (v / 16777216)) by (Z.div_mod_to_equations; lia).
  reflexivity.
Qed.

Lemma readU32_store v rest :
  0 <= v < 2 ^ 32 → readU32 (store_u32 v ++ rest) = Some (v, rest).
Proof.
  intros Hv. unfold readU32, size_of.
  rewrite length_app, store_u32_length.
  destruct (4 >? _) eqn:E; [zlia |].
  rewrite load_store_u32 by exact Hv. reflexivity.
Qed.

Lemma readU32_inv cur v rest :
  readU32 cur = Some (v, rest) → cur = store_u32 v ++ rest ∧ 0 <= v < 2 ^ 32.
Proof.
  unfold readU32. destruct (4 >? size_of cur) eqn:E; [discriminate |].
  intros [= <- <-]. split.
  - symmetry. apply store_load_u32_take. zlia.
  - apply load_u32_range.
Qed.

Lemma readStr_bytes s rest :
  readStr (list_byte_of_string s ++ rest) (str_size s) = Some (s, rest).
Proof.
  unfold readStr, size_of, str_size.
  rewrite length_app, length_list_byte_of_string.
  destruct (_ >? _) eqn:E; [zlia |].
  rewrite Nat2Z.id, <- (length_list_byte_of_string s).
  rewrite take_app_length, drop_app_length, string_of_list_byte_of_string.
  reflexivity.
Qed.

Lemma readStr_inv cur n s rest :
  0 <= n → readStr cur n = Some (s, rest) →
  cur = list_byte_of_string s ++ rest ∧ str_size s = n.
Proof.
  intros Hn. unfold readStr, size_of.
  destruct (n >? _) eqn:E; [discriminate |].
  intros [= <- <-]. rewrite list_byte_of_string_of_list_byte, take_drop.
  split; [reflexivity |].
  unfold str_size. rewrite length_string_of_list_byte, length_take. zlia.
Qed.

Lemma wire_strings_cons s cmd :
  wire_strings (s :: cmd) = store_u32 (str_size s) ++ list_byte_of_string s ++ wire_strings cmd.
Proof. unfold wire_strings, wire_string. cbn [map concat]. rewrite <- app_assoc. reflexivity. Qed.

Lemma wire_strings_size cmd :
  4 * size_of cmd <= size_of (wire_strings cmd)
  ∧ Forall (λ s, str_size s + 4 <= size_of (wire_strings cmd)) cmd.
Proof.
  induction cmd as [| s cmd [IH1 IH2]]; [split; [reflexivity | constructor] |].
  rewrite wire_strings_cons. unfold size_of in *.
  rewrite !length_app, store_u32_length, length_list_byte_of_string.
  unfold str_size. simpl length. split; [lia |].
  constructor; [cbv beta; lia |].
  eapply Forall_impl; [exact IH2 |]. cbv beta. unfold str_size. intros. lia.
Qed.

Lemma wire_body_size cmd :
  size_of (wire_body cmd) = 4 + size_of (wire_strings cmd).
Proof.
  unfold wire_body, size_of. rewrite length_app, store_u32_length. lia.
Qed.

(** Encoded strings are read back, whatever follows them. *)
Lemma parseStrings_wire cmd : ∀ out rest,
  Forall (λ s, str_size s < 2 ^ 32) cmd →
  parseStrings (length cmd) (wire_strings cmd ++ rest) out = Some (out ++ cmd, rest).
Proof.
  induction cmd as [| s cmd IH]; intros out rest Hall.
  - simpl. rewrite app_nil_r. reflexivity.
  - apply Forall_cons in Hall as [Hs Hall].
    rewrite wire_strings_cons. cbn [length parseStrings].
    rewrite <- !app_assoc.
    rewrite readU32_store by (unfold str_size in *; zlia).
    rewrite readStr_bytes, IH by exact Hall.
    rewrite <- app_assoc. reflexivity.
Qed.

(** What the loop accepts is an encoding of what it returns. *)
Lemma parseStrings_inv n : ∀ cur out out' rest,
  parseStrings n cur out = Some (out', rest) →
  ∃ cmd, out' = out ++ cmd ∧ length cmd = n ∧ cur = wire_strings cmd ++ rest.
Proof.
  induction n as [| n IH]; intros cur out out' rest.
  - intros [= <- <-]. exists []. rewrite app_nil_r. auto.
  - cbn [parseStrings].
    destruct (readU32 cur) as [[slen cur1] |] eqn:E1; [| discriminate].
    destruct (readStr cur1 slen) as [[s cur2] |] eqn:E2; [| discriminate].
    intros Hrec. apply IH in Hrec as (cmd & -> & <- & ->).
    apply readU32_inv in E1 as [-> Hslen].
    apply readStr_inv in E2 as [-> <-]; [| lia].
    exists (s :: cmd). rewrite wire_strings_cons, <- !app_assoc.
    auto.
Qed.

Lemma parseRequest_take body rest :
  parseRequest (body ++ rest) (size_of body) = parseRequest body (size_of body).
Proof.
  unfold parseRequest, size_of. rewrite Nat2Z.id.
  rewrite take_app_length, firstn_all. reflexivity.
Qed.

(** Completeness: an encoded request within the count bound parses to
    the request. *)
Lemma parseRequest_wire cmd :
  size_of cmd <= k_max_msg →
  Forall (λ s, str_size s < 2 ^ 32) cmd →
  parseRequest (wire_body cmd) (size_of (wire_body cmd)) = Some cmd.
Proof.
  intros Hn Hall. unfold parseRequest, size_of at 1. rewrite Nat2Z.id, firstn_all.
  unfold wire_body.
  rewrite readU32_store by (unfold size_of in *; zlia).
  destruct (size_of cmd >? k_max_msg) eqn:E; [zlia |].
  unfold size_of at 1. rewrite Nat2Z.id.
  rewrite <- (app_nil_r (wire_strings cmd)).
  rewrite parseStrings_wire by exact Hall.
  reflexivity.
Qed.

(** Soundness: the bytes the parser accepts are the encoding of its
    result, with nothing left over. *)
Lemma parseRequest_inv data size cmd :
  parseRequest data size = Some cmd →
  take (Z.to_nat size) data = wire_body cmd ∧ size_of cmd <= k_max_msg.
Proof.
  unfold parseRequest.
  destruct (readU32 _) as [[nstr cur] |] eqn:E1; [| discriminate].
  destruct (nstr >? k_max_msg) eqn:Emax; [discriminate |].
  destruct (parseStrings _ cur []) as [[out cur'] |] eqn:E2; [| discriminate].
  destruct (size_of cur' =? 0) eqn:E0; [| discriminate].
  intros [= ->].
  apply readU32_inv in E1 as [-> Hn].
  apply parseStrings_inv in E2 as (cmd' & Hout & Hlen & ->).
  simpl in Hout. subst cmd'.
  assert (cur' = []) as ->.
  { unfold size_of in E0. destruct cur'; [reflexivity | simpl in E0; lia]. }
  rewrite app_nil_r. unfold wire_body, size_of. rewrite Hlen.
  rewrite Z2Nat.id by lia. split; [reflexivity | zlia].
Qed.

(** A body that parses is its own window. *)
Lemma parseRequest_exact body cmd :
  parseRequest body (size_of body) = Some cmd → body = wire_body cmd.
Proof.
  intros H. apply parseRequest_inv in H as [H _].
  unfold size_of in H. rewrite Nat2Z.id, firstn_all in H. exact H.
Qed.

(** No string of a parsed request is longer than the body less the two
    length words in front of it. *)
Lemma parseRequest_string_bound body cmd :
  parseRequest body (size_of body) = Some cmd →
  Forall (λ s, str_size s + 8 <= size_of body) cmd.
Proof.
  intros H. apply parseRequest_exact in H. subst body.
  rewrite wire_body_size.
  eapply Forall_impl; [apply wire_strings_size |]. simpl. intros. lia.
Qed.

End Parser.

(** * The client's request builder against the wire format *)

Section Builder.

Lemma append_strings_wire cmd : ∀ payload,
  Client.append_strings cmd payload = payload ++ wire_strings cmd.
Proof.
  induction cmd as [| s cmd IH]; intros payload.
  - simpl. rewrite app_nil_r. reflexivity.
  - cbn [Client.append_strings]. rewrite IH, wire_strings_cons.
    unfold Client.append_u32. rewrite store_u32_wrap32, <- !app_assoc.
    reflexivity.
Qed.

Lemma wire_strings_cons_size s cmd :
  size_of (wire_strings (s :: cmd)) = 4 + str_size s + size_of (wire_strings cmd).
Proof.
  rewrite wire_strings_cons. unfold size_of, str_size.
  rewrite !length_app, store_u32_length, length_list_byte_of_string. lia.
Qed.

Lemma size_of_nonneg {A} (l : list A) : 0 <= size_of l.
Proof. unfold size_of. lia. Qed.

Lemma str_size_nonneg s : 0 <= str_size s.
Proof. unfold str_size. lia. Qed.

(** The estimate is the size of what the second loop will append. *)
Lemma estimate_Some cmd : ∀ e e',
  Client.estimate cmd e = Some e' →
  e' = e + size_of (wire_strings cmd) ∧ (e <= k_max_msg → e' <= k_max_msg).
Proof.
  induction cmd as [| s cmd IH]; intros e e'.
  - intros [= <-]. unfold size_of. simpl. lia.
  - cbn [Client.estimate].
    destruct (str_size s >? k_max_msg) eqn:E1; [discriminate |].
    destruct (e + (4 + str_size s) >? k_max_msg) eqn:E2; [discriminate |].
    intros H. apply IH in H as [-> Hle].
    rewrite wire_strings_cons_size. split; [lia |]. intros _. apply Hle. zlia.
Qed.

Lemma estimate_fits cmd : ∀ e,
  0 <= e → e + size_of (wire_strings cmd) <= k_max_msg →
  Client.estimate cmd e = Some (e + size_of (wire_strings cmd)).
Proof.
  induction cmd as [| s cmd IH]; intros e He Hfit.
  - simpl. unfold size_of. simpl. f_equal. lia.
  - rewrite wire_strings_cons_size in *.
    pose proof (size_of_nonneg (wire_strings cmd)).
    pose proof (str_size_nonneg s).
    cbn [Client.estimate].
    destruct (str_size s >? k_max_msg) eqn:E1; [zlia |].
    destruct (e + (4 + str_size s) >? k_max_msg) eqn:E2; [zlia |].
    rewrite IH by lia. f_equal. lia.
Qed.

(** [build_payload] succeeds exactly on the requests whose encoding is
    within the bound, and yields that encoding. *)
Lemma build_payload_spec cmd body :
  Client.build_payload cmd = Some body ↔
  body = wire_body cmd ∧ size_of body <= k_max_msg.
Proof.
  unfold Client.build_payload. split.
  - destruct (Client.estimate cmd 4) as [e |] eqn:E; [| discriminate].
    intros [= <-]. apply estimate_Some in E as [-> Hle].
    rewrite append_strings_wire. unfold Client.append_u32.
    rewrite store_u32_wrap32. cbn [app]. fold (wire_body cmd).
    rewrite wire_body_size. split; [reflexivity |]. apply Hle. zlia.
  - intros [-> Hle]. rewrite wire_body_size in Hle.
    rewrite estimate_fits by lia.
    rewrite append_strings_wire. unfold Client.append_u32.
    rewrite store_u32_wrap32. reflexivity.
Qed.

(** Within the bound, the count and every string length are 32-bit
    values below the parser's limit. *)
Lemma wire_body_bounded cmd :
  size_of (wire_body cmd) <= k_max_msg →
  size_of cmd <= k_max_msg ∧ Forall (λ s, str_size s < 2 ^ 32) cmd.
Proof.
  rewrite wire_body_size. intros Hle.
  destruct (wire_strings_size cmd) as [H1 H2].
  pose proof (size_of_nonneg cmd).
  split; [lia |].
  eapply Forall_impl; [exact H2 |]. cbv beta. intros. zlia.
Qed.

(** The frames the client sends are complete well-formed request frames. *)
Lemma request_frame_for_client cmd frame :
  Client.request_frame cmd = Some frame → request_frame_for cmd frame.
Proof.
  unfold Client.request_frame.
  destruct (Client.build_payload cmd) as [payload |] eqn:E; [| discriminate].
  apply build_payload_spec in E as [-> Hle].
  pose proof (size_of_nonneg (wire_body cmd)) as H0.
  rewrite wrap32_small by zlia.
  destruct (size_of (wire_body cmd) >? k_max_msg); [discriminate |].
  intros [= <-]. exists (wire_body cmd).
  split; [reflexivity |]. split; [exact Hle |].
  apply wire_body_bounded in Hle as [Hn Hall].
  apply parseRequest_wire; assumption.
Qed.

(** C6. A request that [build_payload] accepts is parsed back by the
    server to the same list of strings; and a body within the maximum
    message size that the server parses to a list of strings is, byte for
    byte, what [build_payload] produces for that list. *)
Theorem request_roundtrip cmd body :
  (Client.build_payload cmd = Some body →
   parseRequest body (size_of body) = Some cmd)
  ∧ (size_of body <= k_max_msg →
     parseRequest body (size_of body) = Some cmd →
     Client.build_payload cmd = Some body).
Proof.
  split.
  - intros H. apply build_payload_spec in H as [-> Hle].
    apply wire_body_bounded in Hle as [Hn Hall].
    apply parseRequest_wire; assumption.
  - intros Hle H. apply build_payload_spec.
    apply parseRequest_exact in H. auto.
Qed.

End Builder.

(** * One request at the head of the incoming buffer *)

Section Framing.

(** The loop, one turn unfolded. *)
Lemma processRequests_eq c store :
  processRequests c store =
  match tryOneRequest c store with
  | (true, c', store') => processRequests c' store'
  | (false, c', store') => (c', store')
  end.
Proof. funelim (processRequests c store); rewrite Heq; reflexivity. Qed.

Lemma bufAppend_app buf data : bufAppend buf data = buf ++ data.
Proof.
  unfold bufAppend, size_of. destruct data; simpl; [| reflexivity].
  rewrite app_nil_r. reflexivity.
Qed.

(** What [appendResponse] puts on the outgoing buffer. *)
Lemma appendResponse_eq c status data :
  appendResponse c status data =
  set_outgoing c
    (outgoing_ c ++ store_u32 (4 + wrap32 (str_size data))
       ++ store_u32 status ++ list_byte_of_string data).
Proof.
  unfold appendResponse, appendOutgoing, set_outgoing. cbn [outgoing_ fd_
    want_read_ want_write_ want_close_ incoming_].
  rewrite !bufAppend_app, store_u32_wrap32.
  destruct (negb (str_size data =? 0)) eqn:E; cbn [outgoing_ fd_
    want_read_ want_write_ want_close_ incoming_].
  - rewrite ?bufAppend_app, <- !app_assoc. reflexivity.
  - assert (data = EmptyString) as ->.
    { unfold str_size in E. destruct data; [reflexivity | simpl in E; lia]. }
    cbn [list_byte_of_string]. rewrite <- !app_assoc. reflexivity.
Qed.

Lemma appendResponse_frame c status data :
  str_size data < 2 ^ 32 →
  appendResponse c status data =
  set_outgoing c (outgoing_ c ++ response_frame status data).
Proof.
  intros Hd. rewrite appendResponse_eq. unfold response_frame.
  rewrite wrap32_small by (pose proof (str_size_nonneg data); lia).
  reflexivity.
Qed.

Variables (c : Connection) (store : KVStore).
Variables (body rest : list byte).
Hypothesis Hincoming : incoming_ c = store_u32 (size_of body) ++ body ++ rest.
Hypothesis Hbody : size_of body <= k_max_msg.

Lemma frame_header :
  (size_of (incoming_ c) <? 4) = false
  ∧ load_u32 (incoming_ c) = size_of body
  ∧ wrap32 (4 + size_of body) = 4 + size_of body
  ∧ (size_of (incoming_ c) <? 4 + size_of body) = false
  ∧ drop 4 (incoming_ c) = body ++ rest
  ∧ bufConsume (incoming_ c) (4 + size_of body) = rest.
Proof.
  pose proof (size_of_nonneg body) as Hb0.
  assert (Hsz : size_of (incoming_ c) = 4 + size_of body + size_of rest).
  { rewrite Hincoming. unfold size_of. rewrite !length_app, store_u32_length. lia. }
  pose proof (size_of_nonneg rest).
  repeat split.
  - lia.
  - rewrite Hincoming. apply load_store_u32. zlia.
  - apply wrap32_small. zlia.
  - lia.
  - rewrite Hincoming. reflexivity.
  - rewrite bufConsume_drop by lia. rewrite Hincoming.
    replace (Z.to_nat (4 + size_of body))
      with (length (store_u32 (size_of body) ++ body))
      by (rewrite length_app, store_u32_length; unfold size_of; lia).
    rewrite app_assoc. apply drop_app_length.
Qed.

(** A frame that parses: the command runs, its response is appended, the
    frame leaves the buffer, and nothing else of the connection moves. *)
Lemma tryOneRequest_frame cmd :
  parseRequest body (size_of body) = Some cmd →
  tryOneRequest c store =
  let '(status, data, store') := execute cmd store in
  (true,
   mkConnection (fd_ c) (want_read_ c) (want_write_ c) (want_close_ c) rest
     (outgoing_ c ++ store_u32 (4 + wrap32 (str_size data))
        ++ store_u32 status ++ list_byte_of_string data),
   store').
Proof.
  intros Hparse.
  destruct frame_header as (H4 & Hlen & Hwrap & Hsz & Hdrop & Hcons).
  unfold tryOneRequest. rewrite H4, Hlen, Hwrap, Hsz, Hdrop.
  destruct (size_of body >? k_max_msg) eqn:E; [zlia |].
  rewrite parseRequest_take, Hparse.
  destruct (execute cmd store) as [[status data] store'].
  rewrite appendResponse_eq. unfold consumeIncoming, set_incoming, set_outgoing.
  cbn [outgoing_ fd_ want_read_ want_write_ want_close_ incoming_].
  rewrite Hcons. reflexivity.
Qed.

(** A frame that does not parse: the connection closes, the frame leaves
    the buffer, nothing is appended. *)
Lemma tryOneRequest_reject :
  parseRequest body (size_of body) = None →
  tryOneRequest c store =
  (false,
   mkConnection (fd_ c) (want_read_ c) (want_write_ c) true rest (outgoing_ c),
   store).
Proof.
  intros Hparse.
  destruct frame_header as (H4 & Hlen & Hwrap & Hsz & Hdrop & Hcons).
  unfold tryOneRequest. rewrite H4, Hlen, Hwrap, Hsz, Hdrop.
  destruct (size_of body >? k_max_msg) eqn:E; [zlia |].
  rewrite parseRequest_take, Hparse.
  unfold consumeIncoming, set_incoming, set_want_close.
  cbn [outgoing_ fd_ want_read_ want_write_ want_close_ incoming_].
  rewrite Hcons. reflexivity.
Qed.

End Framing.

(** A frame sent by the client is served: its command runs and the
    response is appended. *)
Lemma tryOneRequest_client_frame c store cmd frame rest :
  Client.request_frame cmd = Some frame →
  incoming_ c = frame ++ rest →
  tryOneRequest c store =
  let '(status, data, store') := execute cmd store in
  (true,
   mkConnection (fd_ c) (want_read_ c) (want_write_ c) (want_close_ c) rest
     (outgoing_ c ++ store_u32 (4 + wrap32 (str_size data))
        ++ store_u32 status ++ list_byte_of_string data),
   store').
Proof.
  intros Hframe Hin.
  apply request_frame_for_client in Hframe as (body & -> & Hle & Hparse).
  rewrite <- app_assoc in Hin.
  exact (tryOneRequest_frame c store body rest Hin Hle cmd Hparse).
Qed.

(** * Command dispatch *)

Section Dispatch.

Lemma contents_set store k v :
  contents (KVStore_set store k v) = <[k := v]> (contents store).
Proof. unfold contents, KVStore_set. destruct (impl_ store); reflexivity. Qed.

Lemma contents_del store k :
  contents (KVStore_del store k).1 = delete k (contents store).
Proof. unfold contents, KVStore_del. destruct (impl_ store); reflexivity. Qed.

Lemma KVStore_get_eq store k :
  KVStore_get store k = (mkKVStore (Some (contents store)), contents store !! k).
Proof. unfold contents, KVStore_get. destruct (impl_ store); reflexivity. Qed.

Lemma execute_get store k :
  execute ["get"; k]%string store =
  match contents store !! k with
  | Some v => (0, v, mkKVStore (Some (contents store)))
  | None => (ResponseStatus.RES_NX, EmptyString, mkKVStore (Some (contents store)))
  end.
Proof.
  unfold execute. cbn [size_of length nth Z.of_nat]. simpl (_ && _).
  rewrite KVStore_get_eq. destruct (contents store !! k); reflexivity.
Qed.

Lemma execute_set store k v :
  execute ["set"; k; v]%string store = (0, EmptyString, KVStore_set store k v).
Proof. reflexivity. Qed.

Lemma execute_del store k :
  execute ["del"; k]%string store = (0, EmptyString, (KVStore_del store k).1).
Proof. reflexivity. Qed.

Lemma execute_unrecognized cmd store :
  ¬ recognized cmd → execute cmd store = (ResponseStatus.RES_ERR, EmptyString, store).
Proof.
  intros Hnot. unfold execute.
  destruct cmd as [| a [| b [| c0 [| d l]]]]; try reflexivity.
  - (* two strings *)
    change (size_of [a; b] =? 2) with true. change (size_of [a; b] =? 3) with false.
    cbn [nth andb].
    destruct (String.eqb_spec a "get") as [-> | _].
    { exfalso. apply Hnot. left. eauto. }
    destruct (String.eqb_spec a "del") as [-> | _]; [| reflexivity].
    exfalso. apply Hnot. right. right. eauto.
  - (* three strings *)
    change (size_of [a; b; c0] =? 2) with false.
    change (size_of [a; b; c0] =? 3) with true.
    cbn [nth andb].
    destruct (String.eqb_spec a "set") as [-> | _]; [| reflexivity].
    exfalso. apply Hnot. right. left. eauto.
  - (* four or more *)
    assert (H2 : (size_of (a :: b :: c0 :: d :: l) =? 2) = false)
      by (unfold size_of; simpl length; lia).
    assert (H3 : (size_of (a :: b :: c0 :: d :: l) =? 3) = false)
      by (unfold size_of; simpl length; lia).
    rewrite H2, H3. reflexivity.
Qed.

(** C2. [get] on a key answers status 0 with the value the store maps the
    key to, or status 1 (not found) with an empty payload when the store
    has no such key; and a [set] answered by status 0 followed by a [get]
    of the same key answers status 0 with exactly the value set. *)
Theorem get_returns_stored_value store k :
  execute ["get"; k]%string store =
    match contents store !! k with
    | Some v => (0, v, mkKVStore (Some (contents store)))
    | None => (1, EmptyString, mkKVStore (Some (contents store)))
    end
  ∧ ∀ v, execute ["set"; k; v]%string store = (0, EmptyString, KVStore_set store k v)
         ∧ execute ["get"; k]%string (KVStore_set store k v)
           = (0, v, KVStore_set store k v).
Proof.
  split; [apply execute_get |].
  intros v. split; [reflexivity |].
  rewrite execute_get, contents_set, lookup_insert_eq.
  unfold KVStore_set, contents. cbn [impl_]. reflexivity.
Qed.

(** C3. [del] answers status 0 with an empty payload whether or not the
    key was there; afterwards the store has no such key and a [get] of it
    answers not found; the store's own [del] reports whether the key was
    there, and the answer on the wire does not depend on that report. *)
Theorem del_always_succeeds store k :
  execute ["del"; k]%string store = (0, EmptyString, (KVStore_del store k).1)
  ∧ contents (KVStore_del store k).1 !! k = None
  ∧ execute ["get"; k]%string (KVStore_del store k).1
    = (1, EmptyString, (KVStore_del store k).1)
  ∧ ((KVStore_del store k).2 = true ↔ is_Some (contents store !! k)).
Proof.
  split; [reflexivity |].
  assert (Hgone : contents (KVStore_del store k).1 !! k = None)
    by (rewrite contents_del; apply lookup_delete_eq).
  split; [exact Hgone |]. split.
  - rewrite execute_get, Hgone. unfold KVStore_del, contents. cbn [fst impl_].
    reflexivity.
  - unfold KVStore_del, contents. cbn [snd].
    destruct (impl_ store); apply bool_decide_eq_true.
Qed.

End Dispatch.

(** * Protocol violations and unknown commands *)

Section Violations.

Lemma tryOneRequest_oversized c store :
  4 <= size_of (incoming_ c) → load_u32 (incoming_ c) > k_max_msg →
  tryOneRequest c store = (false, set_want_close c true, store).
Proof.
  intros H4 Hbig. unfold tryOneRequest.
  destruct (size_of (incoming_ c) <? 4) eqn:E4; [lia |].
  destruct (load_u32 (incoming_ c) >? k_max_msg) eqn:E; [reflexivity | zlia].
Qed.

(** C1, as the code has it. A connection whose incoming buffer starts
    with a length prefix above the maximum message size closes; nothing is
    appended to its outgoing buffer; its incoming buffer is left as it
    is; the store is untouched; and the request loop stops there. *)
Theorem oversized_frame_closes c store :
  4 <= size_of (incoming_ c) → load_u32 (incoming_ c) > k_max_msg →
  ∃ c', tryOneRequest c store = (false, c', store)
        ∧ want_close_ c' = true
        ∧ outgoing_ c' = outgoing_ c
        ∧ incoming_ c' = incoming_ c
        ∧ processRequests c store = (c', store).
Proof.
  intros H4 Hbig. exists (set_want_close c true).
  pose proof (tryOneRequest_oversized c store H4 Hbig) as Htry.
  repeat split; try reflexivity; [exact Htry |].
  rewrite processRequests_eq, Htry. reflexivity.
Qed.

(** [parseRequest] rejects a body exactly when it is the encoding of no
    list of strings. *)
Lemma parseRequest_None_iff body :
  size_of body <= k_max_msg →
  parseRequest body (size_of body) = None ↔ ∀ cmd, body ≠ wire_body cmd.
Proof.
  intros Hle. split.
  - intros Hnone cmd ->.
    apply wire_body_bounded in Hle as [Hn Hall].
    rewrite parseRequest_wire in Hnone by assumption. discriminate.
  - intros Hno. destruct (parseRequest body (size_of body)) as [cmd |] eqn:E;
      [| reflexivity].
    apply parseRequest_exact in E. destruct (Hno cmd E).
Qed.

(** C7. A complete frame within the maximum message size whose body is
    not a string count followed by exactly that many length-prefixed
    strings and nothing more: the connection closes, nothing is appended
    to the outgoing buffer, the frame (prefix and body) leaves the
    incoming buffer, the store is untouched and the request loop stops. *)
Theorem malformed_frame_closes c store body rest :
  incoming_ c = store_u32 (size_of body) ++ body ++ rest →
  size_of body <= k_max_msg →
  (∀ cmd, body ≠ wire_body cmd) →
  ∃ c', tryOneRequest c store = (false, c', store)
        ∧ want_close_ c' = true
        ∧ outgoing_ c' = outgoing_ c
        ∧ incoming_ c' = rest
        ∧ processRequests c store = (c', store).
Proof.
  intros Hin Hle Hno.
  apply parseRequest_None_iff in Hno; [| exact Hle].
  pose proof (tryOneRequest_reject c store body rest Hin Hle Hno) as Htry.
  eexists. split; [exact Htry |]. repeat split.
  rewrite processRequests_eq, Htry. reflexivity.
Qed.

(** What a [true] from [tryOneRequest] says about the buffer. *)
Lemma tryOneRequest_true_inv c store c' store' :
  tryOneRequest c store = (true, c', store') →
  ∃ cmd, 4 <= size_of (incoming_ c)
         ∧ load_u32 (incoming_ c) <= k_max_msg
         ∧ parseRequest (drop 4 (incoming_ c)) (load_u32 (incoming_ c)) = Some cmd
         ∧ (let '(status, data, store'') := execute cmd store in
            store' = store''
            ∧ c' = consumeIncoming (appendResponse c status data)
                     (wrap32 (4 + load_u32 (incoming_ c)))).
Proof.
  unfold tryOneRequest.
  destruct (size_of (incoming_ c) <? 4) eqn:H4; [discriminate |].
  destruct (load_u32 (incoming_ c) >? k_max_msg) eqn:Hmax; [discriminate |].
  destruct (size_of (incoming_ c) <? wrap32 (4 + load_u32 (incoming_ c))) eqn:Hsz;
    [discriminate |].
  destruct (parseRequest _ _) as [cmd |]; [| discriminate].
  intros H. exists cmd. split; [lia |]. split; [zlia |]. split; [reflexivity |].
  destruct (execute cmd store) as [[status data] st].
  injection H as <- <-. auto.
Qed.

(** A [false] from [tryOneRequest] appends nothing and leaves the store. *)
Lemma tryOneRequest_false_inv c store c' store' :
  tryOneRequest c store = (false, c', store') →
  outgoing_ c' = outgoing_ c ∧ store' = store.
Proof.
  unfold tryOneRequest.
  repeat match goal with
         | |- context [if ?b then _ else _] => destruct b
         end; try (intros [= <- <-]; split; reflexivity).
  destruct (parseRequest _ _) as [cmd |].
  - destruct (execute cmd store) as [[status data] st]. discriminate.
  - intros [= <- <-]. split; reflexivity.
Qed.

(** The strings of a parsed request fit in the window it was parsed from. *)
Lemma parseRequest_strings_le data size cmd :
  0 <= size → parseRequest data size = Some cmd →
  Forall (λ s, str_size s + 8 <= size) cmd.
Proof.
  intros Hsize H. apply parseRequest_inv in H as [H _].
  assert (Hlen : size_of (wire_body cmd) <= size).
  { rewrite <- H. unfold size_of. rewrite length_take. lia. }
  rewrite wire_body_size in Hlen.
  eapply Forall_impl; [apply wire_strings_size |]. cbv beta. intros. lia.
Qed.

(** C8. The maximum message size, 4096, bounds three things: a frame
    whose prefix declares more closes the connection; a body whose string
    count declares more does not parse; and every string of every request
    that [tryOneRequest] parses and serves is at most that long. *)
Theorem max_message_size_bounds :
  k_max_msg = 4096
  ∧ (∀ c store,
       4 <= size_of (incoming_ c) → load_u32 (incoming_ c) > k_max_msg →
       ∃ c', tryOneRequest c store = (false, c', store) ∧ want_close_ c' = true)
  ∧ (∀ body,
       load_u32 body > k_max_msg → parseRequest body (size_of body) = None)
  ∧ (∀ c store c' store',
       tryOneRequest c store = (true, c', store') →
       ∃ cmd, parseRequest (drop 4 (incoming_ c)) (load_u32 (incoming_ c)) = Some cmd
              ∧ Forall (λ s, str_size s <= k_max_msg) cmd).
Proof.
  split; [reflexivity |]. split; [| split].
  - intros c store H4 Hbig. exists (set_want_close c true).
    split; [apply tryOneRequest_oversized; assumption | reflexivity].
  - intros body Hbig. unfold parseRequest, size_of.
    rewrite Nat2Z.id, firstn_all. unfold readU32.
    destruct (4 >? size_of body); [reflexivity |].
    destruct (load_u32 body >? k_max_msg) eqn:E; [reflexivity | zlia].
  - intros c store c' store' Htry.
    apply tryOneRequest_true_inv in Htry as (cmd & H4 & Hmax & Hparse & _).
    exists cmd. split; [exact Hparse |].
    pose proof (load_u32_range (incoming_ c)) as [Hlo _].
    eapply Forall_impl;
      [exact (parseRequest_strings_le _ _ _ Hlo Hparse) |].
    cbv beta. intros. lia.
Qed.

(** C4. A well-formed frame whose command is none of [get key],
    [set key value], [del key] gets a response with status 2^32 - 1 and
    an empty payload; the store is untouched, the connection does not
    close, the frame leaves the incoming buffer and the request loop goes
    on with what follows it. *)
Theorem unknown_command_error c store body rest cmd :
  incoming_ c = store_u32 (size_of body) ++ body ++ rest →
  size_of body <= k_max_msg →
  parseRequest body (size_of body) = Some cmd →
  ¬ recognized cmd →
  ∃ c', tryOneRequest c store = (true, c', store)
        ∧ outgoing_ c' = outgoing_ c ++ response_frame (2 ^ 32 - 1) EmptyString
        ∧ response_frame (2 ^ 32 - 1) EmptyString
          = store_u32 4 ++ store_u32 ResponseStatus.RES_ERR
        ∧ want_close_ c' = want_close_ c
        ∧ want_read_ c' = want_read_ c
        ∧ want_write_ c' = want_write_ c
        ∧ incoming_ c' = rest
        ∧ processRequests c store = processRequests c' store.
Proof.
  intros Hin Hle Hparse Hnot.
  pose proof (tryOneRequest_frame c store body rest Hin Hle cmd Hparse) as Htry.
  rewrite (execute_unrecognized cmd store Hnot) in Htry.
  eexists. split; [exact Htry |]. repeat split.
  rewrite processRequests_eq, Htry. reflexivity.
Qed.

End Violations.

(** * Stores the server can build *)

Section Stores.

Lemma recognized_dec cmd : recognized cmd ∨ ¬ recognized cmd.
Proof.
  unfold recognized.
  destruct cmd as [| a [| b [| c0 [| d l]]]];
    try (right; intros [[? [=]] | [(? & ? & [=]) | [? [=]]]]; fail).
  - destruct (String.eqb_spec a "get") as [-> | Hg]; [left; left; eauto |].
    destruct (String.eqb_spec a "del") as [-> | Hd]; [left; right; right; eauto |].
    right. intros [[? [=]] | [(? & ? & [=]) | [? [=]]]]; congruence.
  - destruct (String.eqb_spec a "set") as [-> | Hs]; [left; right; left; eauto |].
    right. intros [[? [=]] | [(? & ? & [=]) | [? [=]]]]; congruence.
Qed.

(** A command whose strings are short keeps the values short, and its
    own answer is short and carries one of the three statuses. *)
Lemma execute_bounded cmd store :
  values_bounded store →
  Forall (λ s, str_size s + 4 <= k_max_msg) cmd →
  let '(status, data, store') := execute cmd store in
  values_bounded store'
  ∧ str_size data + 4 <= k_max_msg
  ∧ 0 <= status < 2 ^ 32.
Proof.
  intros Hst Hcmd.
  assert (Hempty : str_size EmptyString + 4 <= k_max_msg) by (vm_compute; congruence).
  destruct (recognized_dec cmd) as [[[k ->] | [(k & v & ->) | [k ->]]] | Hnot].
  - rewrite execute_get.
    destruct (contents store !! k) as [v |] eqn:E.
    + split; [exact Hst |]. split; [eapply Hst; exact E | zlia].
    + split; [exact Hst |]. split; [exact Hempty |].
      unfold ResponseStatus.RES_NX. zlia.
  - rewrite execute_set. split; [| split; [exact Hempty | zlia]].
    intros k' v'. rewrite contents_set, lookup_insert.
    case_decide; [| apply Hst].
    intros [= <-]. apply Forall_cons in Hcmd as [_ Hcmd].
    apply Forall_cons in Hcmd as [_ Hcmd].
    apply Forall_cons in Hcmd as [Hv _]. exact Hv.
  - rewrite execute_del. split; [| split; [exact Hempty | zlia]].
    intros k' v'. rewrite contents_del, lookup_delete.
    case_decide; [discriminate | apply Hst].
  - rewrite (execute_unrecognized cmd store Hnot).
    split; [exact Hst |]. split; [exact Hempty |].
    change ResponseStatus.RES_ERR with 4294967295. zlia.
Qed.

Lemma tryOneRequest_values_bounded c store again c' store' :
  values_bounded store →
  tryOneRequest c store = (again, c', store') →
  values_bounded store'.
Proof.
  intros Hst Htry. destruct again.
  - apply tryOneRequest_true_inv in Htry as (cmd & H4 & Hmax & Hparse & Hexec).
    pose proof (load_u32_range (incoming_ c)) as [Hlo _].
    pose proof (parseRequest_strings_le _ _ _ Hlo Hparse) as Hstr.
    assert (Hcmd : Forall (λ s, str_size s + 4 <= k_max_msg) cmd).
    { eapply Forall_impl; [exact Hstr |]. cbv beta. intros. lia. }
    pose proof (execute_bounded cmd store Hst Hcmd) as Hb.
    destruct (execute cmd store) as [[status data] st].
    destruct Hexec as [-> _]. apply Hb.
  - apply tryOneRequest_false_inv in Htry as [_ ->]. exact Hst.
Qed.

Lemma served_values_bounded store : served store → values_bounded store.
Proof.
  induction 1 as [| c store again c' store' _ IH Htry].
  - intros k v. unfold contents, KVStore_new. cbn [impl_].
    rewrite lookup_empty. discriminate.
  - eapply tryOneRequest_values_bounded; eassumption.
Qed.

End Stores.

(** * Pipelined requests *)

Section Pipelining.

Lemma response_frames_cons status data rs :
  response_frames ((status, data) :: rs)
  = response_frame status data ++ response_frames rs.
Proof. reflexivity. Qed.

Lemma run_commands_length cmds : ∀ store,
  length (run_commands cmds store).1 = length cmds.
Proof.
  induction cmds as [| cmd cmds IH]; intros store; [reflexivity |].
  cbn [run_commands]. destruct (execute cmd store) as [[status data] st].
  specialize (IH st). destruct (run_commands cmds st) as [rs st'].
  simpl in *. congruence.
Qed.

(** An empty incoming buffer stops the loop. *)
Lemma processRequests_empty c store :
  incoming_ c = [] → processRequests c store = (c, store).
Proof.
  intros Hin. rewrite processRequests_eq. unfold tryOneRequest.
  rewrite Hin. reflexivity.
Qed.

(** The loop over a buffer that starts with complete frames: one response
    per frame, in the order of the frames, each command run on the store
    its predecessors left. *)
Lemma processRequests_frames cmds frames :
  Forall2 request_frame_for cmds frames →
  ∀ c store rest,
    values_bounded store →
    incoming_ c = concat frames ++ rest →
    processRequests c store =
    processRequests
      (mkConnection (fd_ c) (want_read_ c) (want_write_ c) (want_close_ c) rest
         (outgoing_ c ++ response_frames (run_commands cmds store).1))
      (run_commands cmds store).2.
Proof.
  induction 1 as [| cmd frame cmds frames (body & -> & Hle & Hparse) _ IH];
    intros c store rest Hst Hin.
  - cbn [run_commands fst snd response_frames map concat]. rewrite app_nil_r.
    simpl in Hin. rewrite <- Hin. destruct c; reflexivity.
  - cbn [concat] in Hin. rewrite <- !app_assoc in Hin.
    pose proof (tryOneRequest_frame c store body _ Hin Hle cmd Hparse) as Htry.
    assert (Hcmd : Forall (λ s, str_size s + 4 <= k_max_msg) cmd).
    { eapply Forall_impl; [exact (parseRequest_string_bound _ _ Hparse) |].
      cbv beta. intros. lia. }
    pose proof (execute_bounded cmd store Hst Hcmd) as Hb.
    cbn [run_commands].
    destruct (execute cmd store) as [[status data] st].
    destruct Hb as (Hst' & Hdata & _).
    rewrite wrap32_small in Htry by (pose proof (str_size_nonneg data); zlia).
    rewrite processRequests_eq, Htry.
    rewrite (IH _ st rest Hst') by reflexivity.
    destruct (run_commands cmds st) as [rs st'].
    cbn [fst snd fd_ want_read_ want_write_ want_close_ outgoing_].
    rewrite response_frames_cons, <- !app_assoc. reflexivity.
Qed.

(** What the socket took and what stays queued make up the queue. *)
Lemma handleWritable_conserves w c :
  (handleWritable w c).2 ++ outgoing_ (handleWritable w c).1 = outgoing_ c
  ∧ incoming_ (handleWritable w c).1 = incoming_ c.
Proof.
  unfold handleWritable.
  destruct (size_of (outgoing_ c) =? 0) eqn:E0; [split; reflexivity |].
  destruct w as [| | rv]; try (split; reflexivity).
  assert (Hsplit : take (Z.to_nat rv) (outgoing_ c) ++ bufConsume (outgoing_ c) rv
                   = outgoing_ c).
  { unfold bufConsume.
    destruct (rv =? 0) eqn:Er.
    - assert (rv = 0) as -> by lia. reflexivity.
    - destruct (rv >=? size_of (outgoing_ c)) eqn:Eg.
      + rewrite take_ge by (unfold size_of in Eg; zlia). apply app_nil_r.
      + apply take_drop. }
  cbn [set_outgoing outgoing_].
  destruct (size_of (bufConsume (outgoing_ c) rv) =? 0);
    cbn [fst snd set_wants set_outgoing outgoing_ incoming_]; split;
    solve [exact Hsplit | reflexivity].
Qed.

(** C5. A read that delivers N >= 1 complete well-formed request frames
    into an empty incoming buffer: the request loop appends exactly N
    response frames to the outgoing buffer, the i-th being the answer to
    the i-th request run after its predecessors, and empties the incoming
    buffer; when the handler returns, the bytes handed to the socket
    followed by the bytes still queued are the old queue followed by
    those N frames. *)
Theorem pipelined_requests_answered_in_order c store cmds frames w :
  incoming_ c = [] →
  values_bounded store →
  Forall2 request_frame_for cmds frames →
  frames ≠ [] →
  let rs := (run_commands cmds store).1 in
  let after_loop := processRequests (set_incoming c (concat frames)) store in
  let result := handleReadable (ReadBytes (concat frames)) w c store in
  length rs = length frames
  ∧ outgoing_ after_loop.1 = outgoing_ c ++ response_frames rs
  ∧ incoming_ after_loop.1 = []
  ∧ after_loop.2 = (run_commands cmds store).2
  ∧ result.2 ++ outgoing_ result.1.1 = outgoing_ c ++ response_frames rs
  ∧ result.1.2 = (run_commands cmds store).2.
Proof.
  intros Hin Hst Hframes Hne rs after_loop result.
  assert (Hloop : after_loop =
    (mkConnection (fd_ c) (want_read_ c) (want_write_ c) (want_close_ c) []
       (outgoing_ c ++ response_frames rs), (run_commands cmds store).2)).
  { subst after_loop rs.
    rewrite (processRequests_frames cmds frames Hframes _ store [] Hst)
      by (cbn [set_incoming incoming_]; rewrite app_nil_r; reflexivity).
    apply processRequests_empty. reflexivity. }
  split.
  { subst rs. rewrite run_commands_length.
    apply Forall2_length in Hframes. exact Hframes. }
  rewrite Hloop. cbn [fst snd outgoing_ incoming_].
  do 3 (split; [reflexivity |]).
  subst result. unfold handleReadable.
  rewrite Hin, bufAppend_app. cbn [app].
  fold after_loop. rewrite Hloop.
  destruct (negb (size_of _ =? 0)); cbn [fst snd outgoing_]; [| auto].
  match goal with |- context [handleWritable w ?c0] =>
    pose proof (handleWritable_conserves w c0) as [Hw _];
    destruct (handleWritable w c0) as [cw sent] end.
  cbn [fst snd outgoing_ set_wants] in *. auto.
Qed.

End Pipelining.

(** * The interest flags *)

Section Flags.

Lemma tryOneRequest_flags c store again c' store' :
  tryOneRequest c store = (again, c', store') →
  want_read_ c' = want_read_ c ∧ want_write_ c' = want_write_ c.
Proof.
  destruct again; intros Htry.
  - apply tryOneRequest_true_inv in Htry as (cmd & _ & _ & _ & Hexec).
    destruct (execute cmd store) as [[status data] st].
    destruct Hexec as [_ ->]. rewrite appendResponse_eq. split; reflexivity.
  - revert Htry. unfold tryOneRequest.
    repeat match goal with
           | |- context [if ?b then _ else _] => destruct b
           end; try (intros [= <- <-]; split; reflexivity).
    destruct (parseRequest _ _) as [cmd |].
    + destruct (execute cmd store) as [[status data] st]. discriminate.
    + intros [= <- <-]. split; reflexivity.
Qed.

Lemma processRequests_flags c store :
  want_read_ (processRequests c store).1 = want_read_ c
  ∧ want_write_ (processRequests c store).1 = want_write_ c.
Proof.
  funelim (processRequests c store).
  - destruct (tryOneRequest_flags _ _ _ _ _ Heq) as [<- <-]. assumption.
  - destruct (tryOneRequest_flags _ _ _ _ _ Heq) as [<- <-]. split; reflexivity.
Qed.

Lemma handleWritable_exclusive w c :
  flags_exclusive c → flags_exclusive (handleWritable w c).1.
Proof.
  unfold flags_exclusive, handleWritable. intros Hc.
  destruct (size_of (outgoing_ c) =? 0); [cbn; intros [_ [=]] |].
  destruct w as [| | rv]; try exact Hc.
  cbn [set_outgoing outgoing_].
  destruct (size_of (bufConsume (outgoing_ c) rv) =? 0);
    [cbn; intros [_ [=]] | exact Hc].
Qed.

Lemma handleReadable_exclusive r w c store :
  flags_exclusive c → flags_exclusive (handleReadable r w c store).1.1.
Proof.
  intros Hc. unfold handleReadable.
  destruct r as [| | | buf]; try exact Hc.
  - destruct (negb _); exact Hc.
  - pose proof (processRequests_flags
                  (set_incoming c (bufAppend (incoming_ c) buf)) store) as [Hr Hw].
    destruct (processRequests _ store) as [c1 store1].
    cbn [fst set_incoming want_read_ want_write_] in Hr, Hw.
    destruct (negb (size_of (outgoing_ c1) =? 0)).
    + pose proof (handleWritable_exclusive w (set_wants c1 false true)) as Hx.
      destruct (handleWritable w (set_wants c1 false true)) as [c2 sent].
      apply Hx. unfold flags_exclusive. cbn. intros [[=] _].
    + unfold flags_exclusive in *. cbn [fst]. rewrite Hr, Hw. exact Hc.
Qed.

(** C9. A connection is built wanting to read and not to write; the
    readable and the writable handler, whatever the system calls return
    and whether or not the connection is closing, never leave it wanting
    both when it did not want both before; so no connection built by the
    constructor and driven by the handlers ever wants both. *)
Theorem interest_flags_exclusive :
  (∀ fd, want_read_ (Connection_new fd) = true
         ∧ want_write_ (Connection_new fd) = false)
  ∧ (∀ r w c store,
       flags_exclusive c → flags_exclusive (handleReadable r w c store).1.1)
  ∧ (∀ w c, flags_exclusive c → flags_exclusive (handleWritable w c).1)
  ∧ (∀ c, conn_reachable c → flags_exclusive c).
Proof.
  split; [intros fd; split; reflexivity |].
  split; [exact handleReadable_exclusive |].
  split; [exact handleWritable_exclusive |].
  induction 1 as [fd | r w c store _ IH | w c _ IH].
  - unfold flags_exclusive. cbn. intros [_ [=]].
  - apply handleReadable_exclusive. exact IH.
  - apply handleWritable_exclusive. exact IH.
Qed.

End Flags.

(** * Responses and the client's length check *)

Section Responses.

Lemma response_frame_length status data :
  str_size data + 4 <= k_max_msg →
  load_u32 (response_frame status data) = 4 + str_size data.
Proof.
  intros Hd. unfold response_frame. apply load_store_u32.
  pose proof (str_size_nonneg data). zlia.
Qed.

(** The client reads back what the server framed. *)
Lemma read_response_frame status data more :
  str_size data + 4 <= k_max_msg → 0 <= status < 2 ^ 32 →
  Client.read_response (response_frame status data ++ more)
  = Some (status, data, more).
Proof.
  intros Hd Hs. pose proof (str_size_nonneg data) as Hd0.
  unfold Client.read_response.
  assert (Hlen : load_u32 (response_frame status data ++ more) = 4 + str_size data).
  { unfold response_frame. rewrite <- app_assoc. apply load_store_u32. zlia. }
  rewrite Hlen.
  assert (Hsz : (size_of (response_frame status data ++ more) <? 4) = false).
  { unfold response_frame, size_of. rewrite !length_app, store_u32_length. lia. }
  rewrite Hsz.
  assert (Hok : Client.response_length_ok (4 + str_size data) = true).
  { unfold Client.response_length_ok.
    destruct (4 + str_size data >? k_max_msg) eqn:E1; [zlia |].
    destruct (4 + str_size data <? 4) eqn:E2; [lia | reflexivity]. }
  rewrite Hok. cbn [negb].
  assert (Hdrop : drop 4 (response_frame status data ++ more)
                  = (store_u32 status ++ list_byte_of_string data) ++ more).
  { unfold response_frame. rewrite <- !app_assoc. reflexivity. }
  rewrite Hdrop.
  assert (Hn : Z.to_nat (4 + str_size data)
               = length (store_u32 status ++ list_byte_of_string data)).
  { rewrite length_app, store_u32_length, length_list_byte_of_string.
    unfold str_size. lia. }
  rewrite Hn, take_app_length, drop_app_length.
  assert (Hrb : (size_of (store_u32 status ++ list_byte_of_string data)
                 <? 4 + str_size data) = false).
  { unfold size_of. rewrite <- Hn. lia. }
  rewrite Hrb, load_store_u32 by exact Hs.
  change (drop 4 (store_u32 status ++ list_byte_of_string data))
    with (list_byte_of_string data).
  rewrite string_of_list_byte_of_string. reflexivity.
Qed.

(** C10. On a store the server has built, every response that
    [tryOneRequest] appends is a frame whose length word is 4 plus the
    payload length; the payload is at most 4092 bytes, so the length word
    is at most 4096 and at least 4; the client's length check accepts it,
    and the client reads the status and the payload back. *)
Theorem responses_fit_client_check store c c' store' :
  served store →
  tryOneRequest c store = (true, c', store') →
  ∃ status data,
    outgoing_ c' = outgoing_ c ++ response_frame status data
    ∧ load_u32 (response_frame status data) = 4 + str_size data
    ∧ str_size data <= 4092
    ∧ 4 + str_size data <= k_max_msg
    ∧ Client.response_length_ok (load_u32 (response_frame status data)) = true
    ∧ (∀ more, Client.read_response (response_frame status data ++ more)
               = Some (status, data, more))
    ∧ served store'.
Proof.
  intros Hserved Htry.
  pose proof (served_values_bounded store Hserved) as Hst.
  pose proof (served_request c store true c' store' Hserved Htry) as Hserved'.
  apply tryOneRequest_true_inv in Htry as (cmd & H4 & Hmax & Hparse & Hexec).
  pose proof (load_u32_range (incoming_ c)) as [Hlo _].
  assert (Hcmd : Forall (λ s, str_size s + 4 <= k_max_msg) cmd).
  { eapply Forall_impl; [exact (parseRequest_strings_le _ _ _ Hlo Hparse) |].
    cbv beta. intros. lia. }
  pose proof (execute_bounded cmd store Hst Hcmd) as Hb.
  destruct (execute cmd store) as [[status data] st].
  destruct Hb as (_ & Hdata & Hstatus). destruct Hexec as [-> ->].
  pose proof (str_size_nonneg data) as Hd0.
  exists status, data.
  rewrite response_frame_length by exact Hdata.
  split.
  { rewrite appendResponse_frame by zlia. reflexivity. }
  split; [reflexivity |]. split; [zlia |]. split; [lia |]. split.
  { unfold Client.response_length_ok.
    destruct (4 + str_size data >? k_max_msg) eqn:E1; [zlia |].
    destruct (4 + str_size data <? 4) eqn:E2; [lia | reflexivity]. }
  split; [| exact Hserved'].
  intros more. apply read_response_frame; assumption.
Qed.

End Responses.

(** * The store on its own *)

Section StoreLaws.

(** X1. Writing or deleting one key never changes what [get] answers for
    another key. *)
Theorem store_keys_independent store k k' v :
  k ≠ k' →
  (KVStore_get (KVStore_set store k v) k').2 = (KVStore_get store k').2
  ∧ (KVStore_get (KVStore_del store k).1 k').2 = (KVStore_get store k').2.
Proof.
  intros Hne. rewrite !KVStore_get_eq. cbn [snd].
  rewrite contents_set, contents_del.
  rewrite lookup_insert_ne, lookup_delete_ne by exact Hne.
  split; reflexivity.
Qed.

(** X2. A second [set] on a key replaces the first: [get] answers the last
    value written and the map is the one a single [set] would have left. *)
Theorem store_set_overwrites store k v1 v2 :
  (KVStore_get (KVStore_set (KVStore_set store k v1) k v2) k).2 = Some v2
  ∧ contents (KVStore_set (KVStore_set store k v1) k v2)
    = contents (KVStore_set store k v2).
Proof.
  rewrite KVStore_get_eq. cbn [snd]. rewrite !contents_set.
  split; [apply lookup_insert_eq | apply insert_insert_eq].
Qed.


(** X4. [del] reports [true] for a key just written, [false] when repeated,
    and deleting a key the store does not hold leaves its map as it was. *)
Theorem store_del_reports store k v :
  (KVStore_del (KVStore_set store k v) k).2 = true
  ∧ (KVStore_del (KVStore_del store k).1 k).2 = false
  ∧ ((KVStore_del store k).2 = false →
     contents (KVStore_del store k).1 = contents store).
Proof.
  assert (Hrep : ∀ st, (KVStore_del st k).2 = bool_decide (is_Some (contents st !! k))).
  { intros st. unfold KVStore_del, contents. destruct (impl_ st); reflexivity. }
  rewrite !Hrep, contents_set, !contents_del, lookup_insert_eq, lookup_delete_eq.
  split; [apply bool_decide_eq_true; eauto |].
  split; [apply bool_decide_eq_false; intros [? [=]] |].
  intros Habs. apply bool_decide_eq_false in Habs.
  apply delete_id. destruct (contents store !! k) eqn:E; [| reflexivity].
  destruct Habs. eauto.
Qed.

(** X5. A command that is neither [set key value] nor [del key] leaves the
    map of the store as it was, whatever it answers. *)
Theorem only_set_and_del_write cmd store :
  (∀ k v, cmd ≠ ["set"; k; v]%string) →
  (∀ k, cmd ≠ ["del"; k]%string) →
  contents (execute cmd store).2 = contents store.
Proof.
  intros Hset Hdel.
  destruct (recognized_dec cmd) as [[[k ->] | [(k & v & ->) | [k ->]]] | Hnot].
  - rewrite execute_get. destruct (contents store !! k); reflexivity.
  - destruct (Hset k v eq_refl).
  - destruct (Hdel k eq_refl).
  - rewrite (execute_unrecognized cmd store Hnot). reflexivity.
Qed.

End StoreLaws.

(** * Buffers *)

Section Buffers.

(** X6. [bufConsume] removes the first [n] bytes, or all of them when there
    are fewer, and keeps the rest in order; consuming what a buffer held
    before [bufAppend] leaves exactly the appended bytes. *)
Theorem bufConsume_removes_head buf data n :
  0 <= n →
  take (Z.to_nat n) buf ++ bufConsume buf n = buf
  ∧ size_of (bufConsume buf n) = Z.max 0 (size_of buf - n)
  ∧ bufConsume (bufAppend buf data) (size_of buf) = data.
Proof.
  intros Hn. rewrite !bufConsume_drop by (try apply size_of_nonneg; exact Hn).
  split; [apply take_drop |]. split.
  - unfold size_of. rewrite length_drop. lia.
  - rewrite bufAppend_app. unfold size_of. rewrite Nat2Z.id.
    apply drop_app_length.
Qed.

End Buffers.

(** * More on the wire format *)

Section WireLaws.

(** X7. Within the maximum message size, two requests with the same
    encoding are the same request. *)
Theorem wire_body_injective cmd1 cmd2 :
  size_of (wire_body cmd1) <= k_max_msg →
  wire_body cmd1 = wire_body cmd2 →
  cmd1 = cmd2.
Proof.
  intros Hle Heq.
  assert (Hle2 : size_of (wire_body cmd2) <= k_max_msg) by (rewrite <- Heq; exact Hle).
  apply wire_body_bounded in Hle as [Hn1 Hall1].
  apply wire_body_bounded in Hle2 as [Hn2 Hall2].
  pose proof (parseRequest_wire cmd1 Hn1 Hall1) as H1.
  pose proof (parseRequest_wire cmd2 Hn2 Hall2) as H2.
  rewrite Heq in H1. congruence.
Qed.

(** X8. The size estimate of [build_payload] is exact: it refuses a request
    exactly when its encoding is longer than the maximum message size; and
    the second length check of [send_command] never refuses what
    [build_payload] accepted. *)
Theorem build_payload_refuses_iff_too_long cmd :
  (Client.build_payload cmd = None ↔ size_of (wire_body cmd) > k_max_msg)
  ∧ (Client.request_frame cmd = None ↔ Client.build_payload cmd = None).
Proof.
  split.
  - split.
    + intros Hnone.
      destruct (Z_le_gt_dec (size_of (wire_body cmd)) k_max_msg) as [Hle | Hgt];
        [| exact Hgt].
      assert (Hsome : Client.build_payload cmd = Some (wire_body cmd))
        by (apply build_payload_spec; auto).
      congruence.
    + intros Hgt. destruct (Client.build_payload cmd) as [body |] eqn:E;
        [| reflexivity].
      apply build_payload_spec in E as [-> Hle]. lia.
  - unfold Client.request_frame.
    destruct (Client.build_payload cmd) as [body |] eqn:E; [| tauto].
    apply build_payload_spec in E as [-> Hle].
    pose proof (size_of_nonneg (wire_body cmd)).
    rewrite wrap32_small by zlia.
    destruct (size_of (wire_body cmd) >? k_max_msg) eqn:Egt; [zlia |].
    split; discriminate.
Qed.

End WireLaws.

(** * More on the request loop *)

Section LoopLaws.

Lemma load_u32_app cur more :
  4 <= size_of cur → load_u32 (cur ++ more) = load_u32 cur.
Proof.
  unfold size_of.
  destruct cur as [| b0 [| b1 [| b2 [| b3 rest]]]]; simpl length; try lia.
  reflexivity.
Qed.

(** X9. A buffer that holds less than a length prefix, or a prefix within
    the bound and less than the body it announces, is left waiting:
    [tryOneRequest] answers [false] and changes neither the connection nor
    the store, and the loop returns at once. *)
Theorem incomplete_frame_waits c store :
  size_of (incoming_ c) < 4
  ∨ (load_u32 (incoming_ c) <= k_max_msg
     ∧ size_of (incoming_ c) < 4 + load_u32 (incoming_ c)) →
  tryOneRequest c store = (false, c, store)
  ∧ processRequests c store = (c, store).
Proof.
  intros Hshort.
  assert (Htry : tryOneRequest c store = (false, c, store)).
  { unfold tryOneRequest.
    destruct (size_of (incoming_ c) <? 4) eqn:E4; [reflexivity |].
    destruct Hshort as [Hlt | [Hmax Hlt]]; [lia |].
    pose proof (load_u32_range (incoming_ c)) as [Hlo _].
    destruct (load_u32 (incoming_ c) >? k_max_msg) eqn:Emax; [zlia |].
    rewrite wrap32_small by zlia.
    destruct (size_of (incoming_ c) <? 4 + load_u32 (incoming_ c)) eqn:Esz;
      [reflexivity | lia]. }
  split; [exact Htry |]. rewrite processRequests_eq, Htry. reflexivity.
Qed.

(** A [false] that does not close the connection changed nothing. *)
Lemma tryOneRequest_false_open c store c' store' :
  tryOneRequest c store = (false, c', store') →
  want_close_ c' = false →
  c' = c ∧ store' = store.
Proof.
  unfold tryOneRequest.
  destruct (size_of (incoming_ c) <? 4); [intros [= <- <-]; auto |].
  destruct (load_u32 (incoming_ c) >? k_max_msg);
    [intros [= <- <-]; cbn; discriminate |].
  destruct (size_of (incoming_ c) <? wrap32 (4 + load_u32 (incoming_ c)));
    [intros [= <- <-]; auto |].
  destruct (parseRequest _ _) as [cmd |].
  - destruct (execute cmd store) as [[status data] st]. discriminate.
  - intros [= <- <-]. cbn. discriminate.
Qed.

(** A served frame is served the same way when more bytes follow it. *)
Lemma tryOneRequest_extend c store c' store' more :
  tryOneRequest c store = (true, c', store') →
  tryOneRequest (set_incoming c (incoming_ c ++ more)) store
  = (true, set_incoming c' (incoming_ c' ++ more), store').
Proof.
  unfold tryOneRequest. cbn [set_incoming incoming_].
  pose proof (load_u32_range (incoming_ c)) as [Hlo _].
  destruct (size_of (incoming_ c) <? 4) eqn:E4; [discriminate |].
  rewrite load_u32_app by lia.
  assert (Hsz : size_of (incoming_ c ++ more) = size_of (incoming_ c) + size_of more)
    by (unfold size_of; rewrite length_app; lia).
  pose proof (size_of_nonneg more) as Hm.
  destruct (size_of (incoming_ c ++ more) <? 4) eqn:E4'; [lia |].
  destruct (load_u32 (incoming_ c) >? k_max_msg) eqn:Emax; [discriminate |].
  rewrite wrap32_small by zlia.
  destruct (size_of (incoming_ c) <? 4 + load_u32 (incoming_ c)) eqn:Esz;
    [discriminate |].
  destruct (size_of (incoming_ c ++ more) <? 4 + load_u32 (incoming_ c)) eqn:Esz';
    [lia |].
  assert (Hwin : parseRequest (drop 4 (incoming_ c ++ more)) (load_u32 (incoming_ c))
                 = parseRequest (drop 4 (incoming_ c)) (load_u32 (incoming_ c))).
  { unfold parseRequest. rewrite drop_app_le by (unfold size_of in *; lia).
    rewrite take_app_le; [reflexivity |].
    rewrite length_drop. unfold size_of in *. lia. }
  rewrite Hwin. clear Hwin.
  destruct (parseRequest (drop 4 (incoming_ c)) (load_u32 (incoming_ c)))
    as [cmd |]; [| intros H; discriminate H].
  destruct (execute cmd store) as [[status data] st].
  intros [= <- <-]. f_equal. f_equal.
  rewrite !appendResponse_eq. unfold consumeIncoming, set_incoming, set_outgoing.
  cbn [fd_ want_read_ want_write_ want_close_ incoming_ outgoing_].
  rewrite !bufConsume_drop by lia.
  rewrite drop_app_le by (unfold size_of in *; lia). reflexivity.
Qed.

(** X10. The loop does not depend on how the bytes were cut into reads: if
    it stops without closing the connection, then appending more bytes and
    running it again ends where a single run over all the bytes ends. *)
Theorem request_loop_chunking c store more :
  want_close_ (processRequests c store).1 = false →
  processRequests
    (set_incoming (processRequests c store).1
       (bufAppend (incoming_ (processRequests c store).1) more))
    (processRequests c store).2
  = processRequests (set_incoming c (bufAppend (incoming_ c) more)) store.
Proof.
  rewrite !bufAppend_app.
  funelim (processRequests c store).
  - intros Hopen. rewrite H by exact Hopen.
    symmetry. rewrite processRequests_eq.
    rewrite (tryOneRequest_extend _ _ _ _ more Heq). reflexivity.
  - cbn [fst snd]. intros Hopen.
    destruct (tryOneRequest_false_open _ _ _ _ Heq Hopen) as [-> ->].
    reflexivity.
Qed.

(** One step never reopens a connection, only appends to the outgoing
    buffer and only removes from the head of the incoming buffer. *)
Lemma tryOneRequest_monotone c store again c' store' :
  tryOneRequest c store = (again, c', store') →
  (want_close_ c = true → want_close_ c' = true)
  ∧ (∃ out, outgoing_ c' = outgoing_ c ++ out)
  ∧ (∃ used, incoming_ c = used ++ incoming_ c')
  ∧ fd_ c' = fd_ c.
Proof.
  unfold tryOneRequest.
  assert (Hsame : (want_close_ c = true → want_close_ c = true)
                  ∧ (∃ out, outgoing_ c = outgoing_ c ++ out)
                  ∧ (∃ used, incoming_ c = used ++ incoming_ c)
                  ∧ fd_ c = fd_ c).
  { split; [auto |]. split; [exists []; symmetry; apply app_nil_r |].
    split; [exists []; reflexivity | reflexivity]. }
  pose proof (load_u32_range (incoming_ c)) as [Hlo _].
  destruct (size_of (incoming_ c) <? 4); [intros [= <- <- <-]; exact Hsame |].
  destruct (load_u32 (incoming_ c) >? k_max_msg) eqn:Emax.
  { intros [= <- <- <-]. cbn. destruct Hsame as (_ & H2 & H3 & _). auto. }
  destruct (size_of (incoming_ c) <? wrap32 (4 + load_u32 (incoming_ c)));
    [intros [= <- <- <-]; exact Hsame |].
  assert (Hn : 0 <= wrap32 (4 + load_u32 (incoming_ c)))
    by (rewrite wrap32_small by zlia; lia).
  destruct (parseRequest _ _) as [cmd |].
  - destruct (execute cmd store) as [[status data] st].
    intros [= <- <- <-]. rewrite appendResponse_eq.
    unfold consumeIncoming, set_incoming, set_outgoing.
    cbn [fd_ want_read_ want_write_ want_close_ incoming_ outgoing_].
    rewrite bufConsume_drop by exact Hn.
    split; [auto |]. split; [eauto |]. split; [| reflexivity].
    eexists. symmetry. apply take_drop.
  - intros [= <- <- <-].
    unfold consumeIncoming, set_incoming, set_want_close.
    cbn [fd_ want_read_ want_write_ want_close_ incoming_ outgoing_].
    rewrite bufConsume_drop by exact Hn.
    split; [auto |]. split; [exists []; symmetry; apply app_nil_r |].
    split; [| reflexivity].
    eexists. symmetry. apply take_drop.
Qed.

Lemma processRequests_monotone c store :
  (want_close_ c = true → want_close_ (processRequests c store).1 = true)
  ∧ (∃ out, outgoing_ (processRequests c store).1 = outgoing_ c ++ out)
  ∧ (∃ used, incoming_ c = used ++ incoming_ (processRequests c store).1)
  ∧ fd_ (processRequests c store).1 = fd_ c.
Proof.
  funelim (processRequests c store).
  - destruct (tryOneRequest_monotone _ _ _ _ _ Heq)
      as (Hc & [out1 Ho] & [used1 Hu] & Hfd).
    destruct H as (Hc' & [out2 Ho'] & [used2 Hu'] & Hfd').
    split; [auto |]. split; [| split].
    + exists (out1 ++ out2). rewrite Ho', Ho, app_assoc. reflexivity.
    + exists (used1 ++ used2). rewrite Hu, Hu' at 1. rewrite app_assoc. reflexivity.
    + congruence.
  - exact (tryOneRequest_monotone _ _ _ _ _ Heq).
Qed.

(** X11. The request loop never reorders or rewrites queued bytes: what it
    leaves in the outgoing buffer starts with what was there, and what it
    leaves in the incoming buffer is a tail of what was there. *)
Theorem request_loop_fifo c store :
  (∃ out, outgoing_ (processRequests c store).1 = outgoing_ c ++ out)
  ∧ (∃ used, incoming_ c = used ++ incoming_ (processRequests c store).1).
Proof.
  destruct (processRequests_monotone c store) as (_ & Ho & Hu & _). auto.
Qed.

End LoopLaws.

(** * More on the handlers *)

Section HandlerLaws.

Lemma handleWritable_monotone w c :
  (want_close_ c = true → want_close_ (handleWritable w c).1 = true)
  ∧ fd_ (handleWritable w c).1 = fd_ c.
Proof.
  unfold handleWritable.
  destruct (size_of (outgoing_ c) =? 0); [split; auto |].
  destruct w as [| | rv]; try (split; auto; fail).
  cbn [set_outgoing outgoing_].
  destruct (size_of (bufConsume (outgoing_ c) rv) =? 0); split; auto.
Qed.

Lemma handleReadable_monotone r w c store :
  (want_close_ c = true → want_close_ (handleReadable r w c store).1.1 = true)
  ∧ fd_ (handleReadable r w c store).1.1 = fd_ c.
Proof.
  unfold handleReadable.
  destruct r as [| | | buf]; try (split; auto; fail).
  - destruct (negb _); split; auto.
  - destruct (processRequests_monotone
                (set_incoming c (bufAppend (incoming_ c) buf)) store)
      as (Hc & _ & _ & Hfd).
    destruct (processRequests _ store) as [c1 store1].
    cbn [fst set_incoming want_close_ fd_] in Hc, Hfd.
    destruct (negb (size_of (outgoing_ c1) =? 0)); [| split; auto].
    destruct (handleWritable_monotone w (set_wants c1 false true)) as [Hc' Hfd'].
    destruct (handleWritable w (set_wants c1 false true)) as [c2 sent].
    cbn [fst set_wants want_close_ fd_] in *. split; [auto | congruence].
Qed.

(** X12. Closing is final: neither handler, whatever the system calls
    return, clears [want_close_] once it is set, and the request loop does
    not either. *)
Theorem closing_is_final r w c store :
  want_close_ c = true →
  want_close_ (handleReadable r w c store).1.1 = true
  ∧ want_close_ (handleWritable w c).1 = true
  ∧ want_close_ (processRequests c store).1 = true.
Proof.
  intros Hc. split; [apply handleReadable_monotone; exact Hc |].
  split; [apply handleWritable_monotone; exact Hc |].
  apply processRequests_monotone. exact Hc.
Qed.

(** X13. Bytes leave a connection in the order they were queued: after
    either handler, what the socket took followed by what is still queued
    starts with what was queued before; the writable handler adds nothing. *)
Theorem handlers_send_in_order r w c store :
  (handleWritable w c).2 ++ outgoing_ (handleWritable w c).1 = outgoing_ c
  ∧ ∃ out, (handleReadable r w c store).2
             ++ outgoing_ (handleReadable r w c store).1.1
           = outgoing_ c ++ out.
Proof.
  split; [apply handleWritable_conserves |].
  unfold handleReadable.
  destruct r as [| | | buf]; try (exists []; rewrite app_nil_r; reflexivity).
  - destruct (negb _); exists []; rewrite app_nil_r; reflexivity.
  - destruct (processRequests_monotone
                (set_incoming c (bufAppend (incoming_ c) buf)) store)
      as (_ & [out Ho] & _ & _).
    destruct (processRequests _ store) as [c1 store1].
    cbn [fst set_incoming outgoing_] in Ho.
    exists out. rewrite <- Ho.
    destruct (negb (size_of (outgoing_ c1) =? 0)); [| reflexivity].
    destruct (handleWritable_conserves w (set_wants c1 false true)) as [Hw _].
    destruct (handleWritable w (set_wants c1 false true)) as [c2 sent].
    exact Hw.
Qed.

Lemma handleWritable_queue w c :
  queue_matches_interest c → queue_matches_interest (handleWritable w c).1.
Proof.
  unfold queue_matches_interest, handleWritable. intros [Hw Hq].
  destruct (size_of (outgoing_ c) =? 0) eqn:E0.
  - cbn. split; [reflexivity |]. split; [intros _ | reflexivity].
    unfold size_of in E0. destruct (outgoing_ c); [reflexivity | simpl in E0; lia].
  - destruct w as [| | rv]; try (split; assumption).
    cbn [set_outgoing outgoing_].
    destruct (size_of (bufConsume (outgoing_ c) rv) =? 0) eqn:E1.
    + cbn. split; [reflexivity |]. split; [intros _ | reflexivity].
      unfold size_of in E1.
      destruct (bufConsume (outgoing_ c) rv); [reflexivity | simpl in E1; lia].
    + cbn [fst want_read_ want_write_ outgoing_]. split; [exact Hw |].
      assert (Hne : outgoing_ c ≠ []).
      { intros Habs. rewrite Habs in E0. discriminate E0. }
      assert (Hne' : bufConsume (outgoing_ c) rv ≠ []).
      { intros Habs. rewrite Habs in E1. discriminate E1. }
      split; [intros Hr; apply Hq in Hr; contradiction | contradiction].
Qed.

Lemma handleReadable_queue r w c store :
  queue_matches_interest c →
  queue_matches_interest (handleReadable r w c store).1.1.
Proof.
  intros Hq. unfold handleReadable.
  destruct r as [| | | buf]; try exact Hq.
  - destruct (negb _); exact Hq.
  - pose proof (processRequests_flags
                  (set_incoming c (bufAppend (incoming_ c) buf)) store) as [Hr Hw].
    destruct (processRequests_monotone
                (set_incoming c (bufAppend (incoming_ c) buf)) store)
      as (_ & [out Ho] & _ & _).
    destruct (processRequests _ store) as [c1 store1].
    cbn [fst set_incoming want_read_ want_write_ outgoing_] in Hr, Hw, Ho.
    destruct (negb (size_of (outgoing_ c1) =? 0)) eqn:E.
    + pose proof (handleWritable_queue w (set_wants c1 false true)) as Hx.
      destruct (handleWritable w (set_wants c1 false true)) as [c2 sent].
      apply Hx. unfold queue_matches_interest. cbn.
      split; [reflexivity |]. split; [discriminate |].
      intros Habs. rewrite Habs in E. discriminate E.
    + cbn [fst]. unfold queue_matches_interest in *.
      rewrite Hr, Hw. destruct Hq as [Hq1 Hq2]. split; [exact Hq1 |].
      assert (Hempty : outgoing_ c1 = []).
      { unfold size_of in E. destruct (outgoing_ c1); [reflexivity | simpl in E; lia]. }
      rewrite Hempty in *. symmetry in Ho. apply app_eq_nil in Ho as [Ho _].
      rewrite Ho in Hq2. tauto.
Qed.

(** X14. On every connection built by the constructor and driven by the
    handlers, exactly one of the two interest flags is set, and it is
    [want_write_] exactly when the outgoing buffer holds bytes. *)
Theorem write_interest_iff_queued c :
  conn_reachable c → queue_matches_interest c.
Proof.
  induction 1 as [fd | r w c store _ IH | w c _ IH].
  - unfold queue_matches_interest. cbn. tauto.
  - apply handleReadable_queue. exact IH.
  - apply handleWritable_queue. exact IH.
Qed.

(** X15. One round trip of [send_command] against a connection with empty
    buffers, on a store the server has built, when the socket takes the
    whole response: the server sends exactly one response frame, the client
    reads back the status and the payload of the command run on the store,
    and the connection is left as it was, reading with empty buffers. *)
Theorem send_command_round_trip cmd frame c store :
  served store →
  Client.request_frame cmd = Some frame →
  incoming_ c = [] → outgoing_ c = [] →
  want_read_ c = true → want_write_ c = false →
  let status := (execute cmd store).1.1 in
  let data := (execute cmd store).1.2 in
  let result :=
    handleReadable (ReadBytes frame)
      (Wrote (size_of (response_frame status data))) c store in
  result.2 = response_frame status data
  ∧ Client.read_response result.2 = Some (status, data, [])
  ∧ result.1.2 = (execute cmd store).2
  ∧ result.1.1 = c.
Proof.
  intros Hserved Hframe Hin Hout Hr Hw status data result.
  pose proof (served_values_bounded store Hserved) as Hst.
  pose proof (request_frame_for_client cmd frame Hframe)
    as (body & -> & Hle & Hparse).
  assert (Hcmd : Forall (λ s, str_size s + 4 <= k_max_msg) cmd).
  { eapply Forall_impl; [exact (parseRequest_string_bound _ _ Hparse) |].
    cbv beta. intros. lia. }
  pose proof (execute_bounded cmd store Hst Hcmd) as Hb.
  pose proof (tryOneRequest_frame
                (set_incoming c (store_u32 (size_of body) ++ body ++ []))
                store body [] eq_refl Hle cmd Hparse) as Htry.
  subst result status data. unfold handleReadable.
  rewrite Hin, bufAppend_app. cbn [app].
  destruct (execute cmd store) as [[status data] st]. cbn [fst snd].
  destruct Hb as (_ & Hdata & Hstatus).
  pose proof (str_size_nonneg data) as Hd0.
  rewrite wrap32_small in Htry by zlia.
  replace (store_u32 (size_of body) ++ body)
    with (store_u32 (size_of body) ++ body ++ []) by (rewrite app_nil_r; reflexivity).
  rewrite processRequests_eq, Htry.
  cbn [set_incoming fd_ want_read_ want_write_ want_close_ outgoing_].
  rewrite Hout. cbn [app]. fold (response_frame status data).
  rewrite processRequests_empty by reflexivity.
  cbn [outgoing_].
  assert (Hlen : size_of (response_frame status data) = 8 + str_size data).
  { unfold response_frame, size_of, str_size.
    rewrite !length_app, !store_u32_length, length_list_byte_of_string. lia. }
  destruct (negb (size_of (response_frame status data) =? 0)) eqn:E; [| lia].
  unfold handleWritable. cbn [set_wants outgoing_].
  destruct (size_of (response_frame status data) =? 0) eqn:E0; [lia |].
  cbn [set_outgoing outgoing_].
  rewrite bufConsume_drop by lia.
  assert (Hn : Z.to_nat (size_of (response_frame status data))
               = length (response_frame status data))
    by (unfold size_of; lia).
  rewrite Hn, drop_all, firstn_all.
  cbn [size_of length Z.of_nat Z.eqb fst snd set_wants].
  split; [reflexivity |]. split.
  - rewrite <- (app_nil_r (response_frame status data)).
    apply read_response_frame; assumption.
  - split; [reflexivity |].
    destruct c. cbn in *. subst. reflexivity.
Qed.

End HandlerLaws.

(** * The event loop *)

Section EventLoopLaws.

(** What one turn of the loop of [handleConnectionSockets] can do: skip the
    entry, or run the handlers on the connection in the slot of the entry's
    descriptor and then either empty the slot or leave the connection. *)
Lemma serveConnection_cases io l log pfd :
  ((0 <= pfd_fd pfd →
    ∀ conn, fd2conn_ l !! Z.to_nat (pfd_fd pfd) ≠ Some (Some conn))
   ∧ serveConnection io (l, log) pfd = (l, log))
  ∨ ∃ conn conn' store' log',
      0 <= pfd_fd pfd
      ∧ fd2conn_ l !! Z.to_nat (pfd_fd pfd) = Some (Some conn)
      ∧ fd_ conn' = fd_ conn
      ∧ (want_close_ conn = true → want_close_ conn' = true)
      ∧ (wrap32 (pfd_revents pfd) = 0 →
         conn' = conn ∧ store' = store_ l ∧ log' = log)
      ∧ ((serveConnection io (l, log) pfd
          = (mkEventLoop (listen_fd_ l) store'
               (<[Z.to_nat (pfd_fd pfd) := None]> (fd2conn_ l)) (poll_args_ l),
             log' ++ [SysClosed (fd_ conn)])
          ∧ (Z.land (wrap32 (pfd_revents pfd))
               (Z.lor (Z.lor POLLERR POLLHUP) POLLNVAL) ≠ 0
             ∨ want_close_ conn' = true))
         ∨ (serveConnection io (l, log) pfd
            = (mkEventLoop (listen_fd_ l) store'
                 (<[Z.to_nat (pfd_fd pfd) := Some conn']> (fd2conn_ l))
                 (poll_args_ l),
               log')
            ∧ Z.land (wrap32 (pfd_revents pfd))
                (Z.lor (Z.lor POLLERR POLLHUP) POLLNVAL) = 0
            ∧ want_close_ conn' = false)).
Proof.
  unfold serveConnection.
  destruct ((pfd_fd pfd <? 0) || (pfd_fd pfd >=? size_of (fd2conn_ l))) eqn:Ebad.
  { left. split; [| reflexivity]. intros Hpos conn.
    apply orb_true_iff in Ebad as [Eneg | Ebig]; [lia |].
    rewrite lookup_ge_None_2 by (unfold size_of in Ebig; zlia). discriminate. }
  apply orb_false_iff in Ebad as [Eneg _].
  destruct (fd2conn_ l !! Z.to_nat (pfd_fd pfd)) as [[conn |] |] eqn:Eslot;
    [| left; split; [intros _ conn; discriminate | reflexivity]
     | left; split; [intros _ conn; discriminate | reflexivity]].
  right.
  set (ready := wrap32 (pfd_revents pfd)).
  (* the readable handler *)
  assert (Hin : ∃ c1 s1 log1,
    (if negb (Z.land ready POLLIN =? 0)
     then let '(conn', store', sent) :=
            handleReadable (io_read io (fd_ conn)) (io_read_write io (fd_ conn))
              conn (store_ l) in
          (conn', store', log ++ [SysSent (fd_ conn) sent])
     else (conn, store_ l, log)) = (c1, s1, log1)
    ∧ fd_ c1 = fd_ conn
    ∧ (want_close_ conn = true → want_close_ c1 = true)
    ∧ (ready = 0 → c1 = conn ∧ s1 = store_ l ∧ log1 = log)).
  { destruct (negb (Z.land ready POLLIN =? 0)) eqn:Ein.
    - destruct (handleReadable_monotone (io_read io (fd_ conn))
                  (io_read_write io (fd_ conn)) conn (store_ l)) as [Hc Hfd].
      destruct (handleReadable _ _ conn (store_ l)) as [[c1 s1] sent].
      exists c1, s1, (log ++ [SysSent (fd_ conn) sent]).
      cbn [fst] in Hc, Hfd. repeat split; auto.
      all: match goal with Hz : _ = 0 |- _ => rewrite Hz in Ein; discriminate Ein end.
    - exists conn, (store_ l), log. repeat split; auto. }
  destruct Hin as (c1 & s1 & log1 & -> & Hfd1 & Hc1 & Hz1).
  (* the writable handler *)
  assert (Hout : ∃ c2 log2,
    (if negb (Z.land ready POLLOUT =? 0)
     then let '(conn', sent) := handleWritable (io_write io (fd_ c1)) c1 in
          (conn', log1 ++ [SysSent (fd_ c1) sent])
     else (c1, log1)) = (c2, log2)
    ∧ fd_ c2 = fd_ c1
    ∧ (want_close_ c1 = true → want_close_ c2 = true)
    ∧ (ready = 0 → c2 = c1 ∧ log2 = log1)).
  { destruct (negb (Z.land ready POLLOUT =? 0)) eqn:Eout.
    - destruct (handleWritable_monotone (io_write io (fd_ c1)) c1) as [Hc Hfd].
      destruct (handleWritable _ c1) as [c2 sent].
      exists c2, (log1 ++ [SysSent (fd_ c1) sent]).
      cbn [fst] in Hc, Hfd. repeat split; auto.
      all: match goal with Hz : _ = 0 |- _ => rewrite Hz in Eout; discriminate Eout end.
    - exists c1, log1. repeat split; auto. }
  destruct Hout as (c2 & log2 & -> & Hfd2 & Hc2 & Hz2).
  exists conn, c2, s1, log2.
  split; [lia |]. split; [reflexivity |]. split; [congruence |].
  split; [auto |]. split.
  { intros Hz. destruct (Hz1 Hz) as (-> & -> & ->).
    destruct (Hz2 Hz) as (-> & ->). auto. }
  rewrite Hfd2, Hfd1.
  destruct (negb (Z.land ready (Z.lor (Z.lor POLLERR POLLHUP) POLLNVAL) =? 0))
    eqn:Eerr; cbn [orb].
  - left. split; [reflexivity |]. left.
    intros Hz. fold ready in Hz. rewrite Hz in Eerr. discriminate Eerr.
  - destruct (want_close_ c2) eqn:Eclose.
    + left. split; [reflexivity |]. right. reflexivity.
    + right. split; [reflexivity |]. split; [| reflexivity].
      fold ready. apply negb_false_iff in Eerr. lia.
Qed.

Lemma registry_indexed_insert fd2conn n slot :
  registry_indexed fd2conn →
  (∀ conn, slot = Some conn → fd_ conn = Z.of_nat n) →
  registry_indexed (<[n := slot]> fd2conn).
Proof.
  intros Hidx Hslot i conn Hi.
  apply list_lookup_insert_Some in Hi as [(-> & Heq & _) | [_ Hi]].
  - apply Hslot. exact Heq.
  - apply Hidx. exact Hi.
Qed.

Lemma serveConnection_indexed io st pfd :
  registry_indexed (fd2conn_ st.1) →
  registry_indexed (fd2conn_ (serveConnection io st pfd).1).
Proof.
  destruct st as [l log]. cbn [fst]. intros Hidx.
  destruct (serveConnection_cases io l log pfd)
    as [[_ ->] | (conn & conn' & store' & log' & Hpos & Hslot & Hfd & _ & _
                  & [[-> _] | [-> _]])];
    [exact Hidx | |]; cbn [fst fd2conn_];
    apply registry_indexed_insert; try exact Hidx.
  - discriminate.
  - intros ? [= <-]. rewrite Hfd. apply Hidx. exact Hslot.
Qed.

(** X16. One turn of the loop of [handleConnectionSockets] touches no slot
    of the registry but the one of the entry's descriptor, keeps the size
    of the registry, and leaves the listening descriptor and the poll set
    alone. *)
Theorem serveConnection_touches_one_slot io l log pfd j :
  Z.of_nat j ≠ pfd_fd pfd →
  fd2conn_ (serveConnection io (l, log) pfd).1 !! j = fd2conn_ l !! j
  ∧ length (fd2conn_ (serveConnection io (l, log) pfd).1) = length (fd2conn_ l)
  ∧ listen_fd_ (serveConnection io (l, log) pfd).1 = listen_fd_ l
  ∧ poll_args_ (serveConnection io (l, log) pfd).1 = poll_args_ l.
Proof.
  intros Hj.
  destruct (serveConnection_cases io l log pfd)
    as [[_ ->] | (conn & conn' & store' & log' & Hpos & _ & _ & _ & _
                  & [[-> _] | [-> _]])];
    cbn [fst fd2conn_ listen_fd_ poll_args_]; [auto | |];
    (split; [apply list_lookup_insert_ne; lia |]);
    (split; [apply length_insert | auto]).
Qed.

(** X17. A connection whose entry reports an error, a hang-up or an invalid
    descriptor, or which wants to close after its handlers ran, is torn
    down in the same turn: its slot is emptied and its descriptor closed;
    a connection that stays has neither. *)
Theorem serveConnection_tears_down io l log pfd conn :
  0 <= pfd_fd pfd →
  fd2conn_ l !! Z.to_nat (pfd_fd pfd) = Some (Some conn) →
  let result := serveConnection io (l, log) pfd in
  let bits :=
    Z.land (wrap32 (pfd_revents pfd)) (Z.lor (Z.lor POLLERR POLLHUP) POLLNVAL) in
  (bits ≠ 0 →
   fd2conn_ result.1 !! Z.to_nat (pfd_fd pfd) = Some None
   ∧ ∃ log', result.2 = log' ++ [SysClosed (fd_ conn)])
  ∧ (∀ conn', fd2conn_ result.1 !! Z.to_nat (pfd_fd pfd) = Some (Some conn') →
     bits = 0 ∧ want_close_ conn' = false ∧ fd_ conn' = fd_ conn).
Proof.
  intros Hpos Hslot result bits. subst result bits.
  assert (Hlt : (Z.to_nat (pfd_fd pfd) < length (fd2conn_ l))%nat)
    by (eapply lookup_lt_Some; exact Hslot).
  destruct (serveConnection_cases io l log pfd)
    as [[Hno _] | (conn0 & conn' & store' & log' & _ & Hslot0 & Hfd & _ & _
                  & [[-> Hwhy] | [-> [Hbits Hopen]]])].
  - destruct (Hno Hpos conn Hslot).
  - rewrite Hslot in Hslot0. injection Hslot0 as <-.
    cbn [fst snd fd2conn_]. rewrite list_lookup_insert_eq by exact Hlt.
    split; [eauto | intros ? [=]].
  - rewrite Hslot in Hslot0. injection Hslot0 as <-.
    cbn [fst snd fd2conn_]. rewrite list_lookup_insert_eq by exact Hlt.
    split; [intros Hne; contradiction | intros ? [= <-]; auto].
Qed.

(** The invariant of the loop of [handleConnectionSockets]: a connection
    that wants to close still has its entry ahead. *)
Lemma serve_all_removes_closing io pfds : ∀ st,
  registry_indexed (fd2conn_ st.1) →
  (∀ i conn, fd2conn_ st.1 !! i = Some (Some conn) → want_close_ conn = true →
             ∃ pfd, pfd ∈ pfds ∧ pfd_fd pfd = Z.of_nat i) →
  registry_indexed (fd2conn_ (foldl (serveConnection io) st pfds).1)
  ∧ ∀ i conn, fd2conn_ (foldl (serveConnection io) st pfds).1 !! i
              = Some (Some conn) →
              want_close_ conn = false.
Proof.
  induction pfds as [| pfd pfds IH]; intros st Hidx Hahead.
  - cbn [foldl]. split; [exact Hidx |]. intros i conn Hi.
    destruct (want_close_ conn) eqn:E; [| reflexivity].
    destruct (Hahead i conn Hi E) as (pfd & Hin & _).
    apply elem_of_nil in Hin. destruct Hin.
  - cbn [foldl]. apply IH; [apply serveConnection_indexed; exact Hidx |].
    destruct st as [l log]. cbn [fst] in *.
    intros i conn Hi Hclosing.
    assert (Htail : ∀ conn0, fd2conn_ l !! i = Some (Some conn0) →
                    want_close_ conn0 = true → pfd_fd pfd ≠ Z.of_nat i →
                    ∃ pfd0, pfd0 ∈ pfds ∧ pfd_fd pfd0 = Z.of_nat i).
    { intros conn0 H0 Hc0 Hne.
      destruct (Hahead i conn0 H0 Hc0) as (pfd0 & Hin & Hfd0).
      apply elem_of_cons in Hin as [-> | Hin]; [contradiction | eauto]. }
    destruct (serveConnection_cases io l log pfd)
      as [[Hno Heq] | (conn0 & conn' & store' & log' & Hpos & Hslot & Hfd & _ & _
                      & [[Heq _] | [Heq [_ Hopen]]])];
      rewrite Heq in Hi; cbn [fst fd2conn_] in Hi.
    + apply (Htail conn Hi Hclosing). intros Hfd.
      apply (Hno ltac:(lia) conn). rewrite Hfd, Nat2Z.id. exact Hi.
    + apply list_lookup_insert_Some in Hi as [(_ & [=] & _) | [Hne Hi]].
      apply (Htail conn Hi Hclosing). lia.
    + apply list_lookup_insert_Some in Hi as [(_ & [= <-] & _) | [Hne Hi]];
        [congruence |].
      apply (Htail conn Hi Hclosing). lia.
Qed.

Lemma conn_pollfds_elem fd2conn i conn :
  fd2conn !! i = Some (Some conn) → conn_pollfd conn ∈ conn_pollfds fd2conn.
Proof.
  revert i. induction fd2conn as [| slot fd2conn IH]; intros i Hi;
    [discriminate |].
  destruct i as [| i]; cbn in Hi.
  - injection Hi as ->. cbn [conn_pollfds]. apply elem_of_cons. auto.
  - destruct slot; cbn [conn_pollfds]; [apply elem_of_cons; right |]; eauto.
Qed.

Lemma conn_pollfds_inv fd2conn pfd :
  pfd ∈ conn_pollfds fd2conn →
  ∃ i conn, fd2conn !! i = Some (Some conn) ∧ pfd = conn_pollfd conn.
Proof.
  induction fd2conn as [| [conn |] fd2conn IH]; cbn [conn_pollfds].
  - intros H. apply elem_of_nil in H. destruct H.
  - intros H. apply elem_of_cons in H as [-> | H].
    + exists 0%nat, conn. auto.
    + destruct (IH H) as (i & c & Hi & ->). exists (S i), c. auto.
  - intros H. destruct (IH H) as (i & c & Hi & ->). exists (S i), c. auto.
Qed.

(** What [waitForEvents] and [handleListeningSocket] keep of the poll set:
    the descriptors, in order. *)
Lemma waitForEvents_fds p l l' :
  waitForEvents p l = Returned l' →
  fd2conn_ l' = fd2conn_ l ∧ store_ l' = store_ l
  ∧ listen_fd_ l' = listen_fd_ l
  ∧ pfd_fd <$> poll_args_ l' = pfd_fd <$> poll_args_ l
  ∧ (p = PollInterrupted → poll_args_ l' = poll_args_ l).
Proof.
  destruct p as [| | revents]; cbn [waitForEvents]; [| discriminate |];
    intros [= <-]; cbn [fd2conn_ store_ listen_fd_ poll_args_].
  - auto.
  - repeat split; [| discriminate].
    apply list_eq. intros i. rewrite !list_lookup_fmap, list_lookup_imap.
    destruct (poll_args_ l !! i); reflexivity.
Qed.

Lemma handleListeningSocket_cases a l l' :
  handleListeningSocket a l = Returned l' →
  store_ l' = store_ l ∧ listen_fd_ l' = listen_fd_ l
  ∧ poll_args_ l' = poll_args_ l
  ∧ (fd2conn_ l' = fd2conn_ l
     ∨ (0 <= acc_cfd a
        ∧ (∃ pfd rest, poll_args_ l = pfd :: rest
                       ∧ Z.land (pfd_revents pfd) POLLIN ≠ 0)
        ∧ fd2conn_ l'
          = <[Z.to_nat (acc_cfd a) := Some (Connection_new (acc_cfd a))]>
              (fd2conn_ l
                 ++ replicate (Z.to_nat (acc_cfd a + 1) - length (fd2conn_ l))
                      None))).
Proof.
  unfold handleListeningSocket.
  destruct (poll_args_ l) as [| pfd rest] eqn:Epoll; [intros [= <-]; auto |].
  destruct (Z.land (pfd_revents pfd) POLLIN =? 0) eqn:Ein; [intros [= <-]; auto |].
  unfold acceptOne, setNonBlocking.
  destruct (acc_cfd a <? 0) eqn:Eneg.
  { destruct (acc_would_block a); [intros [= <-]; auto | discriminate]. }
  destruct (acc_getfl_failed a); [discriminate |].
  destruct (acc_setfl_failed a); [discriminate |].
  cbn [Connection_new fd_]. intros [= <-].
  cbn [store_ listen_fd_ poll_args_ fd2conn_].
  repeat split; auto. right. split; [lia |]. split; [exists pfd, rest; split; [reflexivity | lia] |].
  destruct (acc_cfd a >=? size_of (fd2conn_ l)) eqn:Ebig; [reflexivity |].
  replace (Z.to_nat (acc_cfd a + 1) - length (fd2conn_ l))%nat with 0%nat
    by (unfold size_of in Ebig; zlia).
  cbn [replicate]. rewrite app_nil_r. reflexivity.
Qed.

Lemma lookup_app_replicate_None (fd2conn : list (option Connection)) n i conn :
  (fd2conn ++ replicate n None) !! i = Some (Some conn) →
  fd2conn !! i = Some (Some conn).
Proof.
  intros H. apply lookup_app_Some in H as [H | [_ H]]; [exact H |].
  apply lookup_replicate in H as [[=] _].
Qed.

(** The start of a cycle up to the loop over the connections: the registry
    is still indexed, and every closing connection has an entry in the poll
    set after the first. *)
Lemma cycle_start p a l l1 l2 :
  registry_indexed (fd2conn_ l) →
  waitForEvents p (preparePollArgs l) = Returned l1 →
  handleListeningSocket a l1 = Returned l2 →
  registry_indexed (fd2conn_ l2)
  ∧ ∀ i conn, fd2conn_ l2 !! i = Some (Some conn) → want_close_ conn = true →
              ∃ pfd, pfd ∈ drop 1 (poll_args_ l2) ∧ pfd_fd pfd = Z.of_nat i.
Proof.
  intros Hidx Hwait Hlisten.
  apply waitForEvents_fds in Hwait as (Hreg1 & _ & _ & Hfds & _).
  apply handleListeningSocket_cases in Hlisten as (_ & _ & Hpoll & Hreg2).
  cbn [preparePollArgs fd2conn_ poll_args_] in Hreg1, Hfds.
  assert (Hahead : ∀ i conn, fd2conn_ l !! i = Some (Some conn) →
                   ∃ pfd, pfd ∈ drop 1 (poll_args_ l2) ∧ pfd_fd pfd = Z.of_nat i).
  { intros i conn Hi.
    pose proof (conn_pollfds_elem _ _ _ Hi) as Hin.
    assert (Hfd : fd_ conn ∈ pfd_fd <$> drop 1 (poll_args_ l2)).
    { rewrite Hpoll, fmap_drop, Hfds. cbn [fmap list_fmap drop].
      apply list_elem_of_fmap. exists (conn_pollfd conn). auto. }
    apply list_elem_of_fmap in Hfd as (pfd & Hfd & Hpfd).
    exists pfd. split; [exact Hpfd |]. rewrite <- Hfd. apply Hidx. exact Hi. }
  destruct Hreg2 as [-> | (Hpos & _ & ->)].
  - rewrite Hreg1. split; [exact Hidx |]. intros i conn Hi _. eauto.
  - rewrite Hreg1. split.
    + apply registry_indexed_insert.
      * intros i conn Hi. apply Hidx. eapply lookup_app_replicate_None. exact Hi.
      * intros ? [= <-]. cbn. lia.
    + intros i conn Hi Hclosing.
      apply list_lookup_insert_Some in Hi as [(_ & [= <-] & _) | [_ Hi]];
        [discriminate Hclosing |].
      apply lookup_app_replicate_None in Hi. eauto.
Qed.

(** X18. A completed cycle keeps every connection in the slot of its own
    descriptor, and leaves no connection registered that wants to close:
    each of those was torn down within the cycle. *)
Theorem runOnce_removes_closing p a io l l' log :
  registry_indexed (fd2conn_ l) →
  runOnce p a io l = Returned (l', log) →
  registry_indexed (fd2conn_ l')
  ∧ ∀ i conn, fd2conn_ l' !! i = Some (Some conn) → want_close_ conn = false.
Proof.
  intros Hidx. unfold runOnce.
  destruct (waitForEvents p (preparePollArgs l)) as [l1 |] eqn:Hwait;
    [| discriminate].
  destruct (handleListeningSocket a l1) as [l2 |] eqn:Hlisten; [| discriminate].
  intros [= Hrun].
  destruct (cycle_start p a l l1 l2 Hidx Hwait Hlisten) as [Hidx2 Hahead].
  unfold handleConnectionSockets in Hrun.
  pose proof (serve_all_removes_closing io (drop 1 (poll_args_ l2)) (l2, [])
                Hidx2 Hahead) as Hend.
  rewrite Hrun in Hend. exact Hend.
Qed.

Lemma live_connections_insert fd2conn : ∀ (n : nat) (slot : option Connection),
  (live_connections (<[n := slot]> fd2conn)
   <= live_connections fd2conn + match slot with Some _ => 1 | None => 0 end)%nat
  ∧ (∀ conn, fd2conn !! n = Some (Some conn) →
     live_connections (<[n := slot]> fd2conn)
       + match slot with Some _ => 0 | None => 1 end
     = live_connections fd2conn)%nat.
Proof.
  unfold live_connections.
  induction fd2conn as [| old fd2conn IH]; intros n slot.
  - split; [destruct n, slot; cbn; lia | destruct n; discriminate].
  - destruct n as [| n].
    + change (<[0%nat := slot]> (old :: fd2conn)) with (slot :: fd2conn).
      split.
      * destruct old, slot; cbn [conn_pollfds length]; lia.
      * intros conn [= ->]. destruct slot; cbn [conn_pollfds length]; lia.
    + destruct (IH n slot) as [IH1 IH2].
      change (<[S n := slot]> (old :: fd2conn)) with (old :: <[n := slot]> fd2conn).
      change ((old :: fd2conn) !! S n) with (fd2conn !! n).
      destruct old; cbn [conn_pollfds length];
        (split; [lia |]); intros conn Hc; specialize (IH2 conn Hc); lia.
Qed.

Lemma live_connections_app_None fd2conn n :
  live_connections (fd2conn ++ replicate n None) = live_connections fd2conn.
Proof.
  unfold live_connections.
  induction fd2conn as [| [conn |] fd2conn IH]; cbn [app conn_pollfds length].
  - induction n as [| n IHn]; [reflexivity | exact IHn].
  - rewrite IH. reflexivity.
  - exact IH.
Qed.

Lemma serveConnection_live io st pfd :
  (live_connections (fd2conn_ (serveConnection io st pfd).1)
   <= live_connections (fd2conn_ st.1))%nat.
Proof.
  destruct st as [l log]. cbn [fst].
  destruct (serveConnection_cases io l log pfd)
    as [[_ ->] | (conn & conn' & store' & log' & _ & Hslot & _ & _ & _
                  & [[-> _] | [-> _]])];
    cbn [fst fd2conn_]; [lia | |].
  - pose proof (proj1 (live_connections_insert (fd2conn_ l)
                         (Z.to_nat (pfd_fd pfd)) None)) as Hins.
    cbn beta iota in Hins. lia.
  - pose proof (proj2 (live_connections_insert (fd2conn_ l)
                         (Z.to_nat (pfd_fd pfd)) (Some conn')) conn Hslot) as Hins.
    cbn beta iota in Hins. lia.
Qed.

Lemma serve_all_live io pfds : ∀ st,
  (live_connections (fd2conn_ (foldl (serveConnection io) st pfds).1)
   <= live_connections (fd2conn_ st.1))%nat.
Proof.
  induction pfds as [| pfd pfds IH]; intros st; cbn [foldl]; [lia |].
  etransitivity; [apply IH | apply serveConnection_live].
Qed.

(** X19. A cycle admits at most one new connection, however many are
    waiting, and none when [poll] was interrupted. *)
Theorem runOnce_accepts_at_most_one p a io l l' log :
  runOnce p a io l = Returned (l', log) →
  (live_connections (fd2conn_ l') <= S (live_connections (fd2conn_ l)))%nat
  ∧ (p = PollInterrupted →
     (live_connections (fd2conn_ l') <= live_connections (fd2conn_ l))%nat).
Proof.
  unfold runOnce.
  destruct (waitForEvents p (preparePollArgs l)) as [l1 |] eqn:Hwait;
    [| discriminate].
  destruct (handleListeningSocket a l1) as [l2 |] eqn:Hlisten; [| discriminate].
  intros [= Hrun].
  apply waitForEvents_fds in Hwait as (Hreg1 & _ & _ & _ & Hpoll1).
  apply handleListeningSocket_cases in Hlisten as (_ & _ & _ & Hreg2).
  cbn [preparePollArgs fd2conn_ poll_args_] in Hreg1, Hpoll1.
  pose proof (serve_all_live io (drop 1 (poll_args_ l2)) (l2, [])) as Hserve.
  unfold handleConnectionSockets in Hrun. rewrite Hrun in Hserve.
  cbn [fst] in Hserve.
  destruct Hreg2 as [Hreg2 | (_ & (pfd & rest & Hargs & Hin) & Hreg2)].
  - rewrite Hreg2, Hreg1 in Hserve. split; [lia | intros _; lia].
  - split.
    + rewrite Hreg2, Hreg1 in Hserve.
      pose proof (proj1 (live_connections_insert
        (fd2conn_ l ++ replicate (Z.to_nat (acc_cfd a + 1) - length (fd2conn_ l)) None)
        (Z.to_nat (acc_cfd a)) (Some (Connection_new (acc_cfd a))))) as Hins.
      cbn beta iota in Hins. rewrite live_connections_app_None in Hins. lia.
    + intros Hp. rewrite (Hpoll1 Hp) in Hargs. injection Hargs as <- _.
      cbn in Hin. contradiction.
Qed.

(** X20. When the listening socket is readable and [accept] and both
    [fcntl] calls succeed, the new connection is registered in the slot of
    its descriptor, freshly built; every other slot holds the connection it
    held, and the store is not touched. *)
Theorem handleListeningSocket_registers a l pfd rest :
  poll_args_ l = pfd :: rest →
  Z.land (pfd_revents pfd) POLLIN ≠ 0 →
  0 <= acc_cfd a →
  acc_getfl_failed a = false →
  acc_setfl_failed a = false →
  ∃ l', handleListeningSocket a l = Returned l'
        ∧ fd2conn_ l' !! Z.to_nat (acc_cfd a)
          = Some (Some (Connection_new (acc_cfd a)))
        ∧ (∀ j conn, j ≠ Z.to_nat (acc_cfd a) →
             fd2conn_ l' !! j = Some (Some conn)
             ↔ fd2conn_ l !! j = Some (Some conn))
        ∧ store_ l' = store_ l.
Proof.
  intros Hargs Hin Hpos Hget Hset.
  unfold handleListeningSocket, acceptOne, setNonBlocking.
  rewrite Hargs, Hget, Hset.
  destruct (Z.land (pfd_revents pfd) POLLIN =? 0) eqn:Ein; [lia |].
  destruct (acc_cfd a <? 0) eqn:Eneg; [lia |].
  cbn [Connection_new fd_].
  eexists. split; [reflexivity |]. cbn [fd2conn_ store_].
  set (grown := if acc_cfd a >=? size_of (fd2conn_ l) then _ else _).
  assert (Hlen : (Z.to_nat (acc_cfd a) < length grown)%nat).
  { subst grown. destruct (acc_cfd a >=? size_of (fd2conn_ l)) eqn:Ebig.
    - rewrite length_app, length_replicate. unfold size_of in Ebig. zlia.
    - unfold size_of in Ebig. zlia. }
  assert (Hold : ∀ j conn, grown !! j = Some (Some conn)
                           ↔ fd2conn_ l !! j = Some (Some conn)).
  { intros j conn. subst grown.
    destruct (acc_cfd a >=? size_of (fd2conn_ l)); [| tauto].
    split; [apply lookup_app_replicate_None |].
    intros H. apply lookup_app_l_Some. exact H. }
  split; [apply list_lookup_insert_eq; exact Hlen |].
  split; [| reflexivity].
  intros j conn Hj. rewrite list_lookup_insert_ne by auto. apply Hold.
Qed.


(** With no readiness reported, a turn runs no handler. *)
Lemma serve_all_idle io pfds : ∀ st,
  Forall (λ pfd, pfd_revents pfd = 0) pfds →
  store_ (foldl (serveConnection io) st pfds).1 = store_ st.1
  ∧ (∀ i conn, fd2conn_ st.1 !! i = Some (Some conn) → want_close_ conn = false →
       fd2conn_ (foldl (serveConnection io) st pfds).1 !! i = Some (Some conn))
  ∧ (∀ fd bytes, SysSent fd bytes ∈ (foldl (serveConnection io) st pfds).2 →
       SysSent fd bytes ∈ st.2).
Proof.
  induction pfds as [| pfd pfds IH]; intros st Hidle; cbn [foldl]; [auto |].
  apply Forall_cons in Hidle as [Hpfd Hidle].
  destruct (IH (serveConnection io st pfd) Hidle) as (IHs & IHc & IHl).
  destruct st as [l log]. cbn [fst snd] in *.
  assert (Hz : wrap32 (pfd_revents pfd) = 0) by (rewrite Hpfd; reflexivity).
  destruct (serveConnection_cases io l log pfd)
    as [[_ Heq] | (conn0 & conn' & store' & log' & _ & Hslot & _ & _ & Hsame
                  & [[Heq Hwhy] | [Heq _]])];
    rewrite Heq in *; cbn [fst snd fd2conn_ store_] in *; [auto | |];
    destruct (Hsame Hz) as (-> & -> & ->).
  - split; [exact IHs |]. split.
    + intros i conn Hi Hopen. apply IHc; [| exact Hopen].
      rewrite list_lookup_insert_ne; [exact Hi |].
      intros <-. rewrite Hslot in Hi. injection Hi as ->.
      destruct Hwhy as [Hbits | Hclose]; [| congruence].
      rewrite Hz in Hbits. apply Hbits. reflexivity.
    + intros fd bytes Hin. apply IHl in Hin.
      apply elem_of_app in Hin as [Hin | Hin]; [exact Hin |].
      apply list_elem_of_singleton in Hin. discriminate Hin.
  - split; [exact IHs |]. split; [| exact IHl].
    intros i conn Hi Hopen. apply IHc; [| exact Hopen].
    rewrite list_insert_id; [exact Hi | exact Hslot].
Qed.

(** X22. A cycle whose [poll] was interrupted returns, runs no handler and
    accepts nobody: the store is as it was, nothing is sent, and every
    connection that does not want to close stays as it was. *)
Theorem interrupted_cycle_is_idle a io l :
  ∃ l' log,
    runOnce PollInterrupted a io l = Returned (l', log)
    ∧ store_ l' = store_ l
    ∧ (∀ i conn, fd2conn_ l !! i = Some (Some conn) → want_close_ conn = false →
         fd2conn_ l' !! i = Some (Some conn))
    ∧ (∀ fd bytes, SysSent fd bytes ∉ log).
Proof.
  unfold runOnce. cbn [waitForEvents handleListeningSocket preparePollArgs poll_args_].
  change (Z.land (pfd_revents (mkPollfd (listen_fd_ l) POLLIN 0)) POLLIN =? 0)
    with true. cbn iota.
  unfold handleConnectionSockets.
  change (drop 1 (poll_args_ (preparePollArgs l)))
    with (conn_pollfds (fd2conn_ l)).
  set (l0 := preparePollArgs l).
  assert (Hidle : Forall (λ pfd, pfd_revents pfd = 0) (conn_pollfds (fd2conn_ l))).
  { apply Forall_forall. intros pfd Hin.
    apply conn_pollfds_inv in Hin as (i & conn & _ & ->). reflexivity. }
  destruct (serve_all_idle io (conn_pollfds (fd2conn_ l)) (l0, []) Hidle)
    as (Hs & Hc & Hl).
  destruct (foldl (serveConnection io) (l0, []) (conn_pollfds (fd2conn_ l)))
    as [l' log].
  exists l', log. cbn [fst snd] in *. split; [reflexivity |].
  split; [exact Hs |]. split; [exact Hc |].
  intros fd bytes Hin. apply Hl in Hin. apply elem_of_nil in Hin. exact Hin.
Qed.

End EventLoopLaws.

(** * Blocking transfers *)

Section Transfers.

Lemma write_all_progress ws : ∀ buf sent,
  ∃ rest, sent ++ buf = (write_all ws buf sent).2 ++ rest
          ∧ ((write_all ws buf sent).1 = Finished ↔ rest = []).
Proof.
  induction ws as [| w ws IH]; intros buf sent.
  - cbn [write_all]. destruct (negb (size_of buf >? 0)) eqn:E; cbn [fst snd].
    + assert (buf = []) as -> by (destruct buf; [reflexivity | cbn in E; discriminate E]).
      exists []. tauto.
    + exists buf. split; [reflexivity |]. split; [discriminate |].
      intros ->. discriminate E.
  - cbn [write_all]. destruct (negb (size_of buf >? 0)) eqn:E; cbn [fst snd].
    + assert (buf = []) as -> by (destruct buf; [reflexivity | cbn in E; discriminate E]).
      exists []. tauto.
    + assert (Hstuck : ∀ t, t ≠ Finished →
                ∃ rest, sent ++ buf = (t, sent).2 ++ rest
                        ∧ ((t, sent).1 = Finished ↔ rest = [])).
      { intros t Ht. exists buf. split; [reflexivity |]. cbn [fst].
        split; [intros; contradiction | intros ->; discriminate E]. }
      destruct w as [| | rv]; try (apply Hstuck; discriminate).
      destruct (rv <? 0) eqn:Eneg; [apply Hstuck; discriminate |].
      destruct (negb (rv <=? size_of buf)); [apply Hstuck; discriminate |].
      destruct (IH (drop (Z.to_nat rv) buf) (sent ++ take (Z.to_nat rv) buf))
        as (rest & Heq & Hfin).
      exists rest. split; [| exact Hfin].
      rewrite <- Heq, <- app_assoc, take_drop. reflexivity.
Qed.

(** X23. Whatever the [write] calls return, what [write_all] has handed to
    the socket is a prefix of the buffer, in order; it returns exactly when
    that prefix is the whole buffer, so never with bytes left unwritten. *)
Theorem write_all_sends_everything ws buf :
  (∃ rest, buf = (write_all ws buf []).2 ++ rest)
  ∧ ((write_all ws buf []).1 = Finished ↔ (write_all ws buf []).2 = buf).
Proof.
  destruct (write_all_progress ws buf []) as (rest & Heq & Hfin).
  cbn [app] in Heq. split; [eauto |].
  rewrite Hfin. split.
  - intros ->. rewrite app_nil_r in Heq. auto.
  - intros Hall. rewrite Hall in Heq.
    apply (f_equal length) in Heq. rewrite length_app in Heq.
    destruct rest; [reflexivity | simpl in Heq; lia].
Qed.

Lemma read_full_progress steps : ∀ n got,
  ∃ more, (read_full steps n got).2 = got ++ more
          ∧ size_of more <= Z.max 0 n
          ∧ ((read_full steps n got).1 = Finished → size_of more = Z.max 0 n).
Proof.
  induction steps as [| [signal r] steps IH]; intros n got.
  - cbn [read_full]. destruct (negb (n >? 0)) eqn:E; cbn [fst snd];
      exists []; rewrite app_nil_r; unfold size_of; cbn [length].
    + repeat split; zlia.
    + repeat split; [zlia | discriminate].
  - cbn [read_full]. destruct (negb (n >? 0)) eqn:E; cbn [fst snd].
    { exists []. rewrite app_nil_r. unfold size_of. cbn [length].
      repeat split; zlia. }
    assert (Hstuck : ∀ t, t ≠ Finished →
              ∃ more, (t, got).2 = got ++ more
                      ∧ size_of more <= Z.max 0 n
                      ∧ ((t, got).1 = Finished → size_of more = Z.max 0 n)).
    { intros t Ht. exists []. rewrite app_nil_r. unfold size_of. cbn [fst snd length].
      repeat split; [zlia | intros; contradiction]. }
    destruct signal; [apply Hstuck; discriminate |].
    destruct r as [| | | data]; try (apply Hstuck; discriminate).
    + destruct (IH (n - 0) got) as (more & Heq & Hle & Hfin).
      exists more. rewrite Z.sub_0_r in *. auto.
    + destruct (negb (size_of data <=? n)) eqn:Efit; [apply Hstuck; discriminate |].
      destruct (IH (n - size_of data) (got ++ data)) as (more & Heq & Hle & Hfin).
      exists (data ++ more). rewrite Heq, app_assoc.
      pose proof (size_of_nonneg data). pose proof (size_of_nonneg more).
      assert (Hsz : size_of (data ++ more) = size_of data + size_of more)
        by (unfold size_of; rewrite length_app; lia).
      split; [reflexivity |]. split; [zlia |].
      intros Hf. specialize (Hfin Hf). zlia.
Qed.

(** X24. [read_full] never places more than [n] bytes in the buffer and
    returns only once it has placed exactly [n]; a peer that has closed,
    where every [read] returns 0, never makes it return. *)
Theorem read_full_reads_exactly steps n :
  0 <= n →
  size_of (read_full steps n []).2 <= n
  ∧ ((read_full steps n []).1 = Finished → size_of (read_full steps n []).2 = n)
  ∧ (0 < n → Forall (λ step, step = (false, ReadEOF)) steps →
     read_full steps n [] = (Blocked, [])).
Proof.
  intros Hn.
  destruct (read_full_progress steps n []) as (more & Heq & Hle & Hfin).
  cbn [app] in Heq. rewrite Heq.
  split; [lia |]. split; [intros Hf; rewrite (Hfin Hf); lia |].
  intros Hpos Hall. clear Heq Hle Hfin more.
  induction steps as [| step steps IH]; cbn [read_full].
  - destruct (negb (n >? 0)) eqn:E; [zlia | reflexivity].
  - apply Forall_cons in Hall as [-> Hall].
    destruct (negb (n >? 0)) eqn:E; [zlia |].
    rewrite Z.sub_0_r. apply IH. exact Hall.
Qed.

End Transfers.

(** * Concrete runs *)

Lemma request_roundtrip_witness :
  Client.build_payload cmd_set_foo_bar = Some body_set_foo_bar
  ∧ size_of body_set_foo_bar <= k_max_msg
  ∧ parseRequest body_set_foo_bar (size_of body_set_foo_bar) = Some cmd_set_foo_bar
  ∧ Client.build_payload cmd_set_foo_bar = Some body_set_foo_bar.
Proof.
  assert (Hb : Client.build_payload cmd_set_foo_bar = Some body_set_foo_bar)
    by (vm_compute; reflexivity).
  assert (Hle : size_of body_set_foo_bar <= k_max_msg)
    by (vm_compute; congruence).
  pose proof (proj1 (request_roundtrip cmd_set_foo_bar body_set_foo_bar) Hb) as Hp.
  exact (conj Hb (conj Hle (conj Hp
    (proj2 (request_roundtrip cmd_set_foo_bar body_set_foo_bar) Hle Hp)))).
Defined.

(** The three kinds of malformed body are the encoding of no request. *)
Example malformed_bodies_rejected :
  (∀ cmd, body_truncated_prefix ≠ wire_body cmd)
  ∧ (∀ cmd, body_overrun ≠ wire_body cmd)
  ∧ (∀ cmd, body_trailing ≠ wire_body cmd).
Proof.
  repeat split;
    (apply parseRequest_None_iff; [vm_compute; congruence | vm_compute; reflexivity]).
Qed.

(** The demo sequence of the client, one frame per read. *)
Example demo_sequence :
  let step cmd store := let '(status, data, store') := execute cmd store in
                        ((status, data), store') in
  let '(r1, s1) := step ["set"; "foo"; "bar"]%string KVStore_new in
  let '(r2, s2) := step ["get"; "foo"]%string s1 in
  let '(r3, s3) := step ["del"; "foo"]%string s2 in
  let '(r4, s4) := step ["get"; "foo"]%string s3 in
  [r1; r2; r3; r4]
  = [(0, EmptyString); (0, "bar"%string); (0, EmptyString); (1, EmptyString)].
Proof. vm_compute. reflexivity. Qed.

(** C1, as the protocol description words it, fails: the code leaves the
    five buffered bytes of an oversized frame where they are. *)
Lemma oversized_frame_not_dropped :
  4 <= size_of (incoming_ conn_oversized)
  ∧ load_u32 (incoming_ conn_oversized) > k_max_msg
  ∧ ¬ oversized_dropped conn_oversized KVStore_new.
Proof.
  split; [vm_compute; congruence |]. split; [vm_compute; reflexivity |].
  unfold oversized_dropped.
  rewrite tryOneRequest_oversized by (vm_compute; congruence).
  intros (_ & _ & _ & [H | H]); vm_compute in H; discriminate H.
Qed.

Lemma oversized_frame_closes_witness :
  ∃ c', tryOneRequest conn_oversized KVStore_new = (false, c', KVStore_new)
        ∧ want_close_ c' = true
        ∧ outgoing_ c' = outgoing_ conn_oversized
        ∧ incoming_ c' = incoming_ conn_oversized
        ∧ processRequests conn_oversized KVStore_new = (c', KVStore_new).
Proof.
  apply oversized_frame_closes; vm_compute; [congruence | reflexivity].
Defined.

Lemma malformed_frame_closes_witness :
  ∃ c', tryOneRequest conn_trailing KVStore_new = (false, c', KVStore_new)
        ∧ want_close_ c' = true
        ∧ outgoing_ c' = outgoing_ conn_trailing
        ∧ incoming_ c' = []
        ∧ processRequests conn_trailing KVStore_new = (c', KVStore_new).
Proof.
  assert (Hle : size_of body_trailing <= k_max_msg) by (vm_compute; congruence).
  apply (malformed_frame_closes conn_trailing KVStore_new body_trailing []).
  - reflexivity.
  - exact Hle.
  - apply (proj1 (parseRequest_None_iff body_trailing Hle)).
    vm_compute. reflexivity.
Defined.

Lemma max_message_size_bounds_witness :
  (∃ c', tryOneRequest conn_oversized KVStore_new = (false, c', KVStore_new)
         ∧ want_close_ c' = true)
  ∧ parseRequest body_big_count (size_of body_big_count) = None
  ∧ (∃ cmd, parseRequest (drop 4 (incoming_ conn_set_foo_bar))
              (load_u32 (incoming_ conn_set_foo_bar)) = Some cmd
            ∧ Forall (λ s, str_size s <= k_max_msg) cmd).
Proof.
  destruct max_message_size_bounds as (_ & Hframe & Hcount & Hstring).
  split; [| split].
  - apply Hframe; vm_compute; [congruence | reflexivity].
  - apply Hcount. vm_compute. reflexivity.
  - apply (Hstring conn_set_foo_bar KVStore_new
             (tryOneRequest conn_set_foo_bar KVStore_new).1.2
             (tryOneRequest conn_set_foo_bar KVStore_new).2).
    vm_compute. reflexivity.
Defined.

Lemma unknown_command_error_witness :
  ∃ c', tryOneRequest conn_set_one_arg KVStore_new = (true, c', KVStore_new)
        ∧ outgoing_ c' = outgoing_ conn_set_one_arg
                           ++ response_frame (2 ^ 32 - 1) EmptyString
        ∧ response_frame (2 ^ 32 - 1) EmptyString
          = store_u32 4 ++ store_u32 ResponseStatus.RES_ERR
        ∧ want_close_ c' = want_close_ conn_set_one_arg
        ∧ want_read_ c' = want_read_ conn_set_one_arg
        ∧ want_write_ c' = want_write_ conn_set_one_arg
        ∧ incoming_ c' = []
        ∧ processRequests conn_set_one_arg KVStore_new
          = processRequests c' KVStore_new.
Proof.
  apply (unknown_command_error conn_set_one_arg KVStore_new
           (wire_body cmd_set_one_arg) [] cmd_set_one_arg).
  - reflexivity.
  - vm_compute. congruence.
  - vm_compute. reflexivity.
  - intros [[k H] | [(k & v & H) | [k H]]]; discriminate H.
Defined.

Lemma pipelined_requests_witness :
  let result :=
    handleReadable (ReadBytes (concat [frame_set_foo_bar; frame_get_foo]))
      (Wrote 5) (Connection_new 3) KVStore_new in
  result.2 ++ outgoing_ result.1.1
  = response_frame 0 EmptyString ++ response_frame 0 "bar".
Proof.
  assert (Hframes : Forall2 request_frame_for
                      [cmd_set_foo_bar; cmd_get_foo]
                      [frame_set_foo_bar; frame_get_foo]).
  { repeat constructor.
    - exists body_set_foo_bar. split; [reflexivity |].
      split; [vm_compute; congruence | vm_compute; reflexivity].
    - exists (wire_body cmd_get_foo). split; [reflexivity |].
      split; [vm_compute; congruence | vm_compute; reflexivity]. }
  assert (Hne : [frame_set_foo_bar; frame_get_foo] ≠ []) by discriminate.
  destruct (pipelined_requests_answered_in_order (Connection_new 3) KVStore_new
              [cmd_set_foo_bar; cmd_get_foo] [frame_set_foo_bar; frame_get_foo]
              (Wrote 5) eq_refl (served_values_bounded _ served_new) Hframes Hne)
    as (_ & _ & _ & _ & H & _).
  exact H.
Defined.

Lemma interest_flags_exclusive_witness :
  flags_exclusive
    (handleReadable (ReadBytes frame_set_foo_bar) (Wrote 5)
       (Connection_new 3) KVStore_new).1.1.
Proof.
  apply (proj1 (proj2 interest_flags_exclusive)).
  unfold flags_exclusive. cbn. intros [_ H]. discriminate H.
Defined.

Lemma responses_fit_client_check_witness :
  ∃ status data,
    outgoing_ (tryOneRequest conn_set_foo_bar KVStore_new).1.2
    = outgoing_ conn_set_foo_bar ++ response_frame status data
    ∧ load_u32 (response_frame status data) = 4 + str_size data
    ∧ str_size data <= 4092
    ∧ 4 + str_size data <= k_max_msg
    ∧ Client.response_length_ok (load_u32 (response_frame status data)) = true
    ∧ (∀ more, Client.read_response (response_frame status data ++ more)
               = Some (status, data, more))
    ∧ served (tryOneRequest conn_set_foo_bar KVStore_new).2.
Proof.
  apply (responses_fit_client_check KVStore_new conn_set_foo_bar).
  - exact served_new.
  - vm_compute. reflexivity.
Defined.

Lemma store_keys_independent_witness :
  (KVStore_get (KVStore_set KVStore_new "a" "1") "b").2
  = (KVStore_get KVStore_new "b").2
  ∧ (KVStore_get (KVStore_del KVStore_new "a").1 "b").2
    = (KVStore_get KVStore_new "b").2.
Proof.
  apply (store_keys_independent KVStore_new "a" "b" "1"). discriminate.
Defined.

Lemma store_del_reports_witness :
  (KVStore_del KVStore_new "a").2 = false
  ∧ contents (KVStore_del KVStore_new "a").1 = contents KVStore_new.
Proof.
  assert (H : (KVStore_del KVStore_new "a").2 = false) by (vm_compute; reflexivity).
  exact (conj H (proj2 (proj2 (store_del_reports KVStore_new "a" "1")) H)).
Defined.

Lemma only_set_and_del_write_witness :
  contents (execute ["get"; "foo"]%string KVStore_new).2 = contents KVStore_new.
Proof.
  apply only_set_and_del_write; intros; discriminate.
Defined.

Lemma bufConsume_removes_head_witness :
  take (Z.to_nat 2) [x01; x02; x03] ++ bufConsume [x01; x02; x03] 2 = [x01; x02; x03]
  ∧ size_of (bufConsume [x01; x02; x03] 2) = Z.max 0 (size_of [x01; x02; x03] - 2)
  ∧ bufConsume (bufAppend [x01; x02; x03] [x04]) (size_of [x01; x02; x03]) = [x04].
Proof.
  apply (bufConsume_removes_head [x01; x02; x03] [x04] 2). lia.
Defined.

Lemma wire_body_injective_witness : cmd_get_foo = cmd_get_foo.
Proof.
  apply (wire_body_injective cmd_get_foo cmd_get_foo);
    [vm_compute; congruence | reflexivity].
Defined.

(** Two bytes of a length prefix. *)
Lemma incomplete_frame_waits_witness :
  let c := mkConnection 9 true false false [x10; x00] [] in
  tryOneRequest c KVStore_new = (false, c, KVStore_new)
  ∧ processRequests c KVStore_new = (c, KVStore_new).
Proof.
  apply incomplete_frame_waits. left. vm_compute. reflexivity.
Defined.

(** The frame of [set foo bar] followed by the first three bytes of the
    frame of [get foo]; the rest arrives later. *)
Lemma request_loop_chunking_witness :
  let c := mkConnection 9 true false false
             (frame_set_foo_bar ++ take 3 frame_get_foo) [] in
  processRequests
    (set_incoming (processRequests c KVStore_new).1
       (bufAppend (incoming_ (processRequests c KVStore_new).1)
          (drop 3 frame_get_foo)))
    (processRequests c KVStore_new).2
  = processRequests
      (set_incoming c (bufAppend (incoming_ c) (drop 3 frame_get_foo)))
      KVStore_new.
Proof.
  apply request_loop_chunking. vm_compute. reflexivity.
Defined.

(** A connection that was closed by an oversized frame and is driven again. *)
Lemma closing_is_final_witness :
  let c := set_want_close conn_oversized true in
  want_close_ (handleReadable (ReadBytes frame_get_foo) (Wrote 3) c KVStore_new).1.1
  = true
  ∧ want_close_ (handleWritable (Wrote 3) c).1 = true
  ∧ want_close_ (processRequests c KVStore_new).1 = true.
Proof.
  apply closing_is_final. reflexivity.
Defined.

(** A connection after a read of one frame and a write that took five bytes. *)
Lemma write_interest_iff_queued_witness :
  queue_matches_interest
    (handleReadable (ReadBytes frame_set_foo_bar) (Wrote 5)
       (Connection_new 3) KVStore_new).1.1.
Proof.
  apply write_interest_iff_queued.
  apply reach_readable. apply reach_new.
Defined.

Lemma send_command_round_trip_witness :
  let result :=
    handleReadable (ReadBytes frame_set_foo_bar)
      (Wrote (size_of (response_frame 0 EmptyString)))
      (Connection_new 3) KVStore_new in
  result.2 = response_frame 0 EmptyString
  ∧ Client.read_response result.2 = Some (0, EmptyString, [])
  ∧ result.1.2 = (execute cmd_set_foo_bar KVStore_new).2
  ∧ result.1.1 = Connection_new 3.
Proof.
  apply (send_command_round_trip cmd_set_foo_bar frame_set_foo_bar
           (Connection_new 3) KVStore_new).
  - exact served_new.
  - vm_compute. reflexivity.
  - reflexivity.
  - reflexivity.
  - reflexivity.
  - reflexivity.
Defined.

Lemma demo_loop_indexed : registry_indexed (fd2conn_ demo_loop).
Proof.
  intros i conn H.
  do 6 (destruct i as [| i]; [cbn in H; try discriminate H;
                              injection H as <-; reflexivity |]).
  discriminate H.
Qed.

Lemma serveConnection_touches_one_slot_witness :
  fd2conn_ (serveConnection demo_io (demo_loop, []) demo_hup).1 !! 5%nat
  = fd2conn_ demo_loop !! 5%nat
  ∧ length (fd2conn_ (serveConnection demo_io (demo_loop, []) demo_hup).1)
    = length (fd2conn_ demo_loop)
  ∧ listen_fd_ (serveConnection demo_io (demo_loop, []) demo_hup).1
    = listen_fd_ demo_loop
  ∧ poll_args_ (serveConnection demo_io (demo_loop, []) demo_hup).1
    = poll_args_ demo_loop.
Proof.
  apply (serveConnection_touches_one_slot demo_io demo_loop [] demo_hup 5).
  vm_compute. discriminate.
Defined.

Lemma serveConnection_tears_down_witness :
  fd2conn_ (serveConnection demo_io (demo_loop, []) demo_hup).1 !! 4%nat
  = Some None
  ∧ ∃ log', (serveConnection demo_io (demo_loop, []) demo_hup).2
            = log' ++ [SysClosed 4].
Proof.
  apply (proj1 (serveConnection_tears_down demo_io demo_loop [] demo_hup
                  (Connection_new 4) ltac:(vm_compute; congruence) eq_refl)).
  vm_compute. discriminate.
Defined.

Lemma runOnce_removes_closing_witness :
  let result := handleConnectionSockets demo_io
                  (mkEventLoop 3 KVStore_new
                     (fd2conn_ demo_loop ++ [Some (Connection_new 6)])
                     [mkPollfd 3 POLLIN POLLIN;
                      mkPollfd 4 (Z.lor POLLERR POLLIN) POLLIN;
                      mkPollfd 5 (Z.lor POLLERR POLLIN) 0]) in
  runOnce demo_poll demo_accept demo_io demo_loop = Returned result
  ∧ registry_indexed (fd2conn_ result.1)
  ∧ ∀ i conn, fd2conn_ result.1 !! i = Some (Some conn) → want_close_ conn = false.
Proof.
  intros result.
  assert (Hrun : runOnce demo_poll demo_accept demo_io demo_loop
                 = Returned (result.1, result.2))
    by (vm_compute; reflexivity).
  split; [vm_compute; reflexivity |].
  exact (runOnce_removes_closing demo_poll demo_accept demo_io demo_loop
           result.1 result.2 demo_loop_indexed Hrun).
Defined.

Lemma runOnce_accepts_at_most_one_witness :
  ∃ l' log,
    runOnce demo_poll demo_accept demo_io demo_loop = Returned (l', log)
    ∧ (live_connections (fd2conn_ l') <= S (live_connections (fd2conn_ demo_loop)))%nat.
Proof.
  destruct (runOnce demo_poll demo_accept demo_io demo_loop) as [[l' log] |] eqn:E;
    [| vm_compute in E; discriminate E].
  exists l', log. split; [reflexivity |].
  exact (proj1 (runOnce_accepts_at_most_one demo_poll demo_accept demo_io
                  demo_loop l' log E)).
Defined.

Lemma handleListeningSocket_registers_witness :
  let l := mkEventLoop 3 KVStore_new (fd2conn_ demo_loop)
             [mkPollfd 3 POLLIN POLLIN] in
  ∃ l', handleListeningSocket demo_accept l = Returned l'
        ∧ fd2conn_ l' !! Z.to_nat (acc_cfd demo_accept)
          = Some (Some (Connection_new (acc_cfd demo_accept)))
        ∧ (∀ j conn, j ≠ Z.to_nat (acc_cfd demo_accept) →
             fd2conn_ l' !! j = Some (Some conn)
             ↔ fd2conn_ l !! j = Some (Some conn))
        ∧ store_ l' = store_ l.
Proof.
  intros l.
  apply (handleListeningSocket_registers demo_accept l
           (mkPollfd 3 POLLIN POLLIN) []).
  - reflexivity.
  - vm_compute. discriminate.
  - vm_compute. congruence.
  - reflexivity.
  - reflexivity.
Defined.

(** A peer that has closed, and a request for four bytes. *)
Lemma read_full_reads_exactly_witness :
  read_full [(false, ReadEOF); (false, ReadEOF)] 4 [] = (Blocked, []).
Proof.
  apply (proj2 (proj2 (read_full_reads_exactly
                         [(false, ReadEOF); (false, ReadEOF)] 4 ltac:(lia)))).
  - lia.
  - repeat constructor.
Defined.
